(** * Mythic L2 sequencer tile: fee-priority queue, block assembly, cadence

    A shallow embedding of [fd_sequencer_tile.h], [fd_sequencer.h] and
    [fd_sequencer_tile.c].

    Conventions.
    - [ulong] is a [Z] in [0, 2^64); every C expression that can wrap is
      written with [wrap64].  [uint] is a [Z] in [0, 2^32) ([wrap32]) and
      [long] a [Z] in [-2^63, 2^63) ([wrap_long], two's complement).
    - A [uchar] array is a [list Z] of bytes.
    - The array [tx_queue] points to is a [list fd_sequencer_txn]; reading
      or writing it out of range is undefined in C and is [None] here.
    - Functions that can hit undefined behaviour, or whose loop is only
      known to stop under the queue invariant, return an [option]. *)

From Stdlib Require Import ZArith List Lia.
From stdpp Require Import base tactics option list sorting.

Local Open Scope Z_scope.

(** [lia] is to see through division and remainder by constants. *)
Ltac Zify.zify_post_hook ::= Z.div_mod_to_equations.

(** ** Machine integers *)

Definition wrap64 (x : Z) : Z := x mod 2 ^ 64.
Definition wrap32 (x : Z) : Z := x mod 2 ^ 32.
Definition wrap_long (x : Z) : Z := (x + 2 ^ 63) mod 2 ^ 64 - 2 ^ 63.

Definition ULONG_MAX : Z := 2 ^ 64 - 1.

(** ** Constants of [fd_sequencer_tile.h] *)

Definition FD_SEQUENCER_TILE_ALIGN : Z := 128.
Definition FD_SEQUENCER_TILE_FOOTPRINT : Z := Z.shiftl 1 22.
Definition FD_SEQUENCER_TXN_MTU : Z := 1232.
Definition FD_SEQUENCER_QUEUE_MAX : Z := 65536.

(** ** Data model *)

Record fd_sequencer_cfg := mk_cfg {
  block_time_ns : Z;
  max_txns_per_block : Z;
  epoch_length_slots : Z
}.

Definition FD_SEQUENCER_CFG_DEFAULT : fd_sequencer_cfg :=
  {| block_time_ns := 400000000;
     max_txns_per_block := 10000;
     epoch_length_slots := 432000 |}.

Record fd_sequencer_txn := mk_txn {
  payload : list Z;
  payload_sz : Z;
  fee : Z;
  received_ticks : Z;
  sig : list Z
}.

(** The header has a field [parent_hash] and a field [txn_count] like the
    tile; the header's fields carry the prefix [hdr_].  [hdr_pad] is the
    tail padding of the struct (bytes 180..183), which [sizeof] covers. *)
Record fd_sequencer_block_hdr := mk_hdr {
  hdr_slot : Z;
  hdr_parent_hash : list Z;
  hdr_merkle_root : list Z;
  hdr_timestamp : Z;
  hdr_sequencer_pubkey : list Z;
  hdr_txn_count : Z;
  hdr_signature : list Z;
  hdr_pad : list Z
}.

Record fd_sequencer_tile := mk_tile {
  sequencer_identity : list Z;
  sequencer_privkey : list Z;
  current_slot : Z;
  current_epoch : Z;
  block_count : Z;
  txn_count : Z;
  block_start_ticks : Z;
  parent_hash : list Z;
  tx_queue : list fd_sequencer_txn;
  tx_queue_cnt : Z;
  tx_queue_cap : Z;
  fee_total : Z;
  last_metrics_ticks : Z;
  cfg : fd_sequencer_cfg;
  frag_buf : list Z;
  frag_buf_sz : Z
}.

(** Field updates ([tile->f = v]). *)

Definition set_queue (t : fd_sequencer_tile) (q : list fd_sequencer_txn) (cnt : Z)
  : fd_sequencer_tile :=
  mk_tile (sequencer_identity t) (sequencer_privkey t) (current_slot t)
    (current_epoch t) (block_count t) (txn_count t) (block_start_ticks t)
    (parent_hash t) q cnt (tx_queue_cap t) (fee_total t)
    (last_metrics_ticks t) (cfg t) (frag_buf t) (frag_buf_sz t).

Definition set_frag (t : fd_sequencer_tile) (buf : list Z) (sz : Z)
  : fd_sequencer_tile :=
  mk_tile (sequencer_identity t) (sequencer_privkey t) (current_slot t)
    (current_epoch t) (block_count t) (txn_count t) (block_start_ticks t)
    (parent_hash t) (tx_queue t) (tx_queue_cnt t) (tx_queue_cap t)
    (fee_total t) (last_metrics_ticks t) (cfg t) buf sz.

Definition set_txn_count (t : fd_sequencer_tile) (n : Z) : fd_sequencer_tile :=
  mk_tile (sequencer_identity t) (sequencer_privkey t) (current_slot t)
    (current_epoch t) (block_count t) n (block_start_ticks t)
    (parent_hash t) (tx_queue t) (tx_queue_cnt t) (tx_queue_cap t)
    (fee_total t) (last_metrics_ticks t) (cfg t) (frag_buf t) (frag_buf_sz t).

Definition set_fee_total (t : fd_sequencer_tile) (f : Z) : fd_sequencer_tile :=
  mk_tile (sequencer_identity t) (sequencer_privkey t) (current_slot t)
    (current_epoch t) (block_count t) (txn_count t) (block_start_ticks t)
    (parent_hash t) (tx_queue t) (tx_queue_cnt t) (tx_queue_cap t)
    f (last_metrics_ticks t) (cfg t) (frag_buf t) (frag_buf_sz t).

Definition set_parent_hash (t : fd_sequencer_tile) (h : list Z) : fd_sequencer_tile :=
  mk_tile (sequencer_identity t) (sequencer_privkey t) (current_slot t)
    (current_epoch t) (block_count t) (txn_count t) (block_start_ticks t)
    h (tx_queue t) (tx_queue_cnt t) (tx_queue_cap t)
    (fee_total t) (last_metrics_ticks t) (cfg t) (frag_buf t) (frag_buf_sz t).

Definition set_block_start_ticks (t : fd_sequencer_tile) (now : Z) : fd_sequencer_tile :=
  mk_tile (sequencer_identity t) (sequencer_privkey t) (current_slot t)
    (current_epoch t) (block_count t) (txn_count t) now
    (parent_hash t) (tx_queue t) (tx_queue_cnt t) (tx_queue_cap t)
    (fee_total t) (last_metrics_ticks t) (cfg t) (frag_buf t) (frag_buf_sz t).

Definition set_position (t : fd_sequencer_tile) (slot epoch blocks : Z)
  : fd_sequencer_tile :=
  mk_tile (sequencer_identity t) (sequencer_privkey t) slot epoch blocks
    (txn_count t) (block_start_ticks t)
    (parent_hash t) (tx_queue t) (tx_queue_cnt t) (tx_queue_cap t)
    (fee_total t) (last_metrics_ticks t) (cfg t) (frag_buf t) (frag_buf_sz t).

(** ** Array access

    [q[i]] for an [ulong] index [i]: defined only inside the array. *)

Definition aget {A} (q : list A) (i : Z) : option A := q !! Z.to_nat i.

Definition aset {A} (q : list A) (i : Z) (x : A) : option (list A) :=
  if decide (Z.to_nat i < length q)%nat then Some (<[Z.to_nat i := x]> q)
  else None.

(** The three [fd_memcpy] calls through [tmp] that exchange two entries. *)
Definition swap (q : list fd_sequencer_txn) (i j : Z)
  : option (list fd_sequencer_txn) :=
  tmp ← aget q i;
  x ← aget q j;
  q1 ← aset q i x;
  aset q1 j tmp.

(** ** Transaction priority queue (max-heap ordered by fee) *)

(** The [while( idx > 0UL )] loop of push.  [fuel] bounds the number of
    iterations; [idx] strictly decreases, so [Z.to_nat idx] is enough
    (lemmas [sift_up_correct] and [sift_up_fuel]). *)
Fixpoint sift_up (fuel : nat) (q : list fd_sequencer_txn) (idx : Z)
  : option (list fd_sequencer_txn) :=
  if decide (idx > 0) then
    match fuel with
    | O => None
    | S fuel' =>
        let parent := wrap64 (idx - 1) / 2 in
        p ← aget q parent;
        c ← aget q idx;
        if decide (fee p >= fee c) then Some q
        else q' ← swap q idx parent; sift_up fuel' q' parent
    end
  else Some q.

(** Push: the result is the new tile and the C return value (1 on
    success, 0 if the queue is full). *)
Definition fd_sequencer_txn_queue_push (t : fd_sequencer_tile)
    (txn : fd_sequencer_txn) : option (fd_sequencer_tile * Z) :=
  if decide (tx_queue_cnt t >= tx_queue_cap t) then Some (t, 0)
  else
    let idx := tx_queue_cnt t in
    let cnt := wrap64 (tx_queue_cnt t + 1) in
    q1 ← aset (tx_queue t) idx txn;
    q2 ← sift_up (Z.to_nat idx) q1 idx;
    Some (set_queue t q2 cnt, 1).

(** One test of the sift-down body:
    [if( c < cnt && q[c].fee > q[best].fee ) best = c;] *)
Definition pick (q : list fd_sequencer_txn) (cnt c best : Z) : option Z :=
  if decide (c < cnt) then
    x ← aget q c;
    b ← aget q best;
    Some (if decide (fee x > fee b) then c else best)
  else Some best.

(** The [for(;;)] loop of pop.  Under the queue invariant [idx] strictly
    increases and stays below [cnt], so [Z.to_nat cnt] iterations are
    enough (lemmas [sift_down_correct] and [sift_down_fuel]). *)
Fixpoint sift_down (fuel : nat) (q : list fd_sequencer_txn) (cnt idx : Z)
  : option (list fd_sequencer_txn) :=
  match fuel with
  | O => None
  | S fuel' =>
      let left := wrap64 (2 * idx + 1) in
      let right := wrap64 (2 * idx + 2) in
      best ← pick q cnt left idx;
      best ← pick q cnt right best;
      if decide (best = idx) then Some q
      else q' ← swap q idx best; sift_down fuel' q' cnt best
  end.

(** Pop: the result is the new tile and what was written to [*out]
    ([Some] entry with return value 1, [None] with return value 0 and
    [*out] untouched). *)
Definition fd_sequencer_txn_queue_pop (t : fd_sequencer_tile)
  : option (fd_sequencer_tile * option fd_sequencer_txn) :=
  if decide (tx_queue_cnt t = 0) then Some (t, None)
  else
    out ← aget (tx_queue t) 0;
    let cnt := wrap64 (tx_queue_cnt t - 1) in
    if decide (cnt > 0) then
      last ← aget (tx_queue t) cnt;
      q1 ← aset (tx_queue t) 0 last;
      q2 ← sift_down (Z.to_nat cnt) q1 cnt 0;
      Some (set_queue t q2 cnt, Some out)
    else Some (set_queue t (tx_queue t) cnt, Some out).

(** Peek: [None] is the NULL pointer, [Some x] the entry at [&tx_queue[0]]. *)
Definition fd_sequencer_txn_queue_peek (t : fd_sequencer_tile)
  : option fd_sequencer_txn :=
  if decide (tx_queue_cnt t = 0) then None else aget (tx_queue t) 0.

Definition fd_sequencer_txn_queue_cnt (t : fd_sequencer_tile) : Z :=
  tx_queue_cnt t.

(** ** Struct layout (x86-64 System V: [uchar] 1, [uint] 4, [ulong],
    [long] and pointers 8, each aligned to its size) *)

Inductive c_type :=
  | T_uchar_array (n : Z)
  | T_uint
  | T_ulong
  | T_long
  | T_ptr
  | T_struct (size align : Z).

Definition c_sizeof (ty : c_type) : Z :=
  match ty with
  | T_uchar_array n => n
  | T_uint => 4
  | T_ulong | T_long | T_ptr => 8
  | T_struct size _ => size
  end.

Definition c_alignof (ty : c_type) : Z :=
  match ty with
  | T_uchar_array _ => 1
  | T_uint => 4
  | T_ulong | T_long | T_ptr => 8
  | T_struct _ align => align
  end.

Definition align_up (x a : Z) : Z := (x + a - 1) / a * a.

(** Offsets of the fields of a struct laid out from offset [off]. *)
Fixpoint field_offsets (off : Z) (fs : list c_type) : list Z :=
  match fs with
  | [] => []
  | f :: fs' =>
      let o := align_up off (c_alignof f) in
      o :: field_offsets (o + c_sizeof f) fs'
  end.

Fixpoint end_offset (off : Z) (fs : list c_type) : Z :=
  match fs with
  | [] => off
  | f :: fs' => end_offset (align_up off (c_alignof f) + c_sizeof f) fs'
  end.

Definition struct_align (fs : list c_type) : Z :=
  foldr Z.max 1 (map c_alignof fs).

Definition struct_size (fs : list c_type) : Z :=
  align_up (end_offset 0 fs) (struct_align fs).

Definition struct_offsetof (fs : list c_type) (k : nat) : Z :=
  nth k (field_offsets 0 fs) 0.

Definition cfg_fields : list c_type := [T_ulong; T_ulong; T_ulong].

Definition txn_fields : list c_type :=
  [T_uchar_array FD_SEQUENCER_TXN_MTU; T_ulong; T_ulong; T_long;
   T_uchar_array 64].

Definition hdr_fields : list c_type :=
  [T_ulong; T_uchar_array 32; T_uchar_array 32; T_long; T_uchar_array 32;
   T_uint; T_uchar_array 64].

Definition tile_fields : list c_type :=
  [T_uchar_array 32; T_uchar_array 64;
   T_ulong; T_ulong; T_ulong; T_ulong; T_long; T_uchar_array 32;
   T_ptr; T_ulong; T_ulong;
   T_ulong; T_long;
   T_struct (struct_size cfg_fields) (struct_align cfg_fields);
   T_uchar_array FD_SEQUENCER_TXN_MTU; T_ulong].

Definition sizeof_txn : Z := struct_size txn_fields.
Definition sizeof_hdr : Z := struct_size hdr_fields.
Definition sizeof_tile : Z := struct_size tile_fields.

(** [offsetof( fd_sequencer_block_hdr_t, signature )]: field number 6. *)
Definition offsetof_signature : Z := struct_offsetof hdr_fields 6.

(** ** Bytes *)

Definition zeros (n : nat) : list Z := replicate n 0.

(** [n] little-endian bytes of [x] (two's complement for a negative [x]). *)
Fixpoint le_bytes (n : nat) (x : Z) : list Z :=
  match n with
  | O => []
  | S n' => x mod 256 :: le_bytes n' (x / 256)
  end.

(** The header as it lies in memory, field after field. *)
Definition hdr_bytes (h : fd_sequencer_block_hdr) : list Z :=
  le_bytes 8 (hdr_slot h) ++ hdr_parent_hash h ++ hdr_merkle_root h ++
  le_bytes 8 (hdr_timestamp h) ++ hdr_sequencer_pubkey h ++
  le_bytes 4 (hdr_txn_count h) ++ hdr_signature h ++ hdr_pad h.

(** [fd_memset( hdr, 0, sizeof(fd_sequencer_block_hdr_t) )]. *)
Definition hdr_zero : fd_sequencer_block_hdr :=
  mk_hdr 0 (zeros 32) (zeros 32) 0 (zeros 32) 0 (zeros 64) (zeros 4).

(** [fd_memset( &txn, 0, sizeof(fd_sequencer_txn_t) )]. *)
Definition txn_zero : fd_sequencer_txn :=
  mk_txn (zeros (Z.to_nat FD_SEQUENCER_TXN_MTU)) 0 0 0 (zeros 64).

(** [fd_memcpy( dst, src, n )] on arrays: the first [n] bytes of [dst]
    become the first [n] bytes of [src]; undefined when either array is
    shorter than [n]. *)
Definition fd_memcpy (dst src : list Z) (n : Z) : option (list Z) :=
  if decide (Z.to_nat n <= length dst ∧ Z.to_nat n <= length src)%nat
  then Some (take (Z.to_nat n) src ++ drop (Z.to_nat n) dst)
  else None.

(** ** Slot / epoch advancement

    [None] is the division by zero of [current_slot % epoch_length_slots]
    when the epoch length is 0; [&&] evaluates it only for a nonzero
    slot. *)
Definition fd_sequencer_advance_slot (t : fd_sequencer_tile)
  : option (fd_sequencer_tile * Z) :=
  let slot := wrap64 (current_slot t + 1) in
  let blocks := wrap64 (block_count t + 1) in
  if decide (slot > 0) then
    if decide (epoch_length_slots (cfg t) = 0) then None
    else if decide (slot mod epoch_length_slots (cfg t) = 0) then
      Some (set_position t slot (wrap64 (current_epoch t + 1)) blocks, 1)
    else Some (set_position t slot (current_epoch t) blocks, 0)
  else Some (set_position t slot (current_epoch t) blocks, 0).

(** ** Fragment callbacks *)

(** [chunk] is the memory the chunk address points to.  The unused
    arguments [in_idx], [seq], [sig] and [opt_filter] are left out. *)
Definition fd_sequencer_tile_during_frag (t : fd_sequencer_tile)
    (chunk : list Z) (sz : Z) : option fd_sequencer_tile :=
  if decide (sz > FD_SEQUENCER_TXN_MTU) then
    Some (set_frag t (frag_buf t) 0)
  else
    buf ← fd_memcpy (frag_buf t) chunk sz;
    Some (set_frag t buf sz).

(** [opt_sig] is [None] for a NULL pointer and [Some s] for a pointer to
    [s]; [ticks] is what [fd_tickcount()] returns. *)
Definition fd_sequencer_tile_after_frag (t : fd_sequencer_tile)
    (opt_sig : option Z) (ticks : Z) : option fd_sequencer_tile :=
  if decide (frag_buf_sz t = 0) then Some t
  else
    p ← fd_memcpy (payload txn_zero) (frag_buf t) (frag_buf_sz t);
    let sz := frag_buf_sz t in
    s ← (if decide (sz >= 65) then fd_memcpy (sig txn_zero) (drop 1 p) 64
         else Some (sig txn_zero));
    let base := 5000 in
    let f := match opt_sig with
             | Some v => if decide (v > 0) then v else base
             | None => base
             end in
    let txn := mk_txn p sz f ticks s in
    r ← fd_sequencer_txn_queue_push t txn;
    if decide (r.2 = 0) then Some (set_frag r.1 (frag_buf r.1) 0)
    else
      let t1 := set_txn_count r.1 (wrap64 (txn_count r.1 + 1)) in
      Some (set_frag t1 (frag_buf t1) 0).

(** ** Block construction and housekeeping *)

(** The loop [while( n < (uint)max_txns )] of block construction: pops
    at most [k] entries and stops at the first failing pop.  The result
    lists the entries written to [txns_out[0..n)]. *)
Fixpoint drain (k : nat) (t : fd_sequencer_tile)
  : option (fd_sequencer_tile * list fd_sequencer_txn) :=
  match k with
  | O => Some (t, [])
  | S k' =>
      r ← fd_sequencer_txn_queue_pop t;
      match r.2 with
      | None => Some (r.1, [])
      | Some x => r' ← drain k' r.1; Some (r'.1, x :: r'.2)
      end
  end.

(** The bytes the signature is computed over: [sign_len] bytes from the
    start of the header. *)
Definition hdr_signed_bytes (h : fd_sequencer_block_hdr) : list Z :=
  take (Z.to_nat offsetof_signature) (hdr_bytes h).

(** The bytes the parent hash is computed over: the whole struct. *)
Definition hdr_full_bytes (h : fd_sequencer_block_hdr) : list Z :=
  take (Z.to_nat sizeof_hdr) (hdr_bytes h).

Record block := mk_block {
  blk_hdr : fd_sequencer_block_hdr;
  blk_txns : list fd_sequencer_txn;
  blk_cnt : Z
}.

(** The elapsed time housekeeping compares with the block interval:
    [now - block_start_ticks] as a [long], clamped at 0, cast to [ulong]. *)
Definition elapsed_ns (t : fd_sequencer_tile) (now : Z) : Z :=
  let elapsed_ticks := wrap_long (now - block_start_ticks t) in
  let elapsed_ticks :=
    if decide (elapsed_ticks < 0) then 0 else elapsed_ticks in
  wrap64 elapsed_ticks.

(** How a call on a thread with a bounded stack ends: it returns, or it
    runs into undefined behaviour (an access out of range, a division by
    zero), or its automatic objects do not fit the stack. *)
Inductive outcome (A : Type) : Type :=
  | Returns (a : A)
  | Undefined
  | Stack_overflow.

Arguments Returns {A} a.
Arguments Undefined {A}.
Arguments Stack_overflow {A}.

(** Bytes of the automatic objects housekeeping declares for a block:
    [fd_sequencer_txn_t txns_out[ 10000 ]], [fd_sequencer_block_hdr_t hdr]
    and [fd_sha256_t sha_ctx[1]].  [fd_sha256_t] is declared in the ballet
    library, so its size is a parameter.  Padding between the objects and
    the frames of the callees come on top. *)
Definition housekeeping_autos_sz (sizeof_sha256 : Z) : Z :=
  10000 * sizeof_txn + sizeof_hdr + 1 * sizeof_sha256.

(** The callbacks the stem run loop invokes on the tile. *)
Inductive event :=
  | During_frag (chunk : list Z) (sz : Z)
  | After_frag (opt_sig : option Z) (ticks : Z)
  | Housekeeping (now wallclock : Z) (hdr0 : fd_sequencer_block_hdr).

Section Sequencer.

(** The hash and signature primitives come from Firedancer's ballet
    library.  [sha256 m] is the digest that init, append of [m], fini
    produce; [fd_ed25519_sign msg pubkey privkey] the signature. *)
Variable sha256 : list Z → list Z.
Variable fd_ed25519_sign : list Z → list Z → list Z → list Z.

(** [hdr0] is what the caller's header memory holds on entry;
    [wallclock] is what [fd_log_wallclock()] returns. *)
Definition fd_sequencer_build_block (t : fd_sequencer_tile)
    (hdr0 : fd_sequencer_block_hdr) (max_txns : Z) (wallclock : Z)
  : option (fd_sequencer_tile * block) :=
  r ← drain (Z.to_nat (wrap32 max_txns)) t;
  let t1 := r.1 in
  let txns := r.2 in
  let n := Z.of_nat (length txns) in
  if decide (n = 0) then
    let hdr :=
      mk_hdr (current_slot t1) (parent_hash t1) (hdr_merkle_root hdr_zero)
        (hdr_timestamp hdr_zero) (sequencer_identity t1) 0
        (hdr_signature hdr_zero) (hdr_pad hdr_zero) in
    Some (t1, mk_block hdr txns 0)
  else
    let merkle := sha256 (concat (map sig txns)) in
    let hdr1 :=
      mk_hdr (current_slot t1) (parent_hash t1) merkle wallclock
        (sequencer_identity t1) n (hdr_signature hdr0) (hdr_pad hdr0) in
    let s := fd_ed25519_sign (hdr_signed_bytes hdr1)
               (sequencer_identity t1) (sequencer_privkey t1) in
    let hdr2 :=
      mk_hdr (hdr_slot hdr1) (hdr_parent_hash hdr1) (hdr_merkle_root hdr1)
        (hdr_timestamp hdr1) (hdr_sequencer_pubkey hdr1)
        (hdr_txn_count hdr1) s (hdr_pad hdr1) in
    let total :=
      fold_left (λ acc x, wrap64 (acc + fee x)) txns (fee_total t1) in
    Some (set_fee_total t1 total, mk_block hdr2 txns n).

(** [now] is what [fd_tickcount()] returns; [hdr0] is what the stack
    slot of [hdr] holds on entry.  The second component is the block
    produced by this call, if any. *)
Definition fd_sequencer_tile_during_housekeeping (t : fd_sequencer_tile)
    (now wallclock : Z) (hdr0 : fd_sequencer_block_hdr)
  : option (fd_sequencer_tile * option block) :=
  if decide (elapsed_ns t now < block_time_ns (cfg t)) then Some (t, None)
  else
    let max_txns := max_txns_per_block (cfg t) in
    let max_txns := if decide (max_txns > 10000) then 10000 else max_txns in
    r ← fd_sequencer_build_block t hdr0 max_txns wallclock;
    let t1 := set_parent_hash r.1 (sha256 (hdr_full_bytes (blk_hdr r.2))) in
    a ← fd_sequencer_advance_slot t1;
    Some (set_block_start_ticks a.1 now, Some r.2).

(** Housekeeping on a thread that has [stack_sz] bytes of stack for the
    automatic objects of the call.  The early return uses none of them;
    the block path passes [txns_out], [&hdr] and [sha_ctx] to block
    construction and so needs them all in place. *)
Definition fd_sequencer_tile_during_housekeeping_on_stack
    (stack_sz sizeof_sha256 : Z) (t : fd_sequencer_tile)
    (now wallclock : Z) (hdr0 : fd_sequencer_block_hdr)
  : outcome (fd_sequencer_tile * option block) :=
  if decide (elapsed_ns t now < block_time_ns (cfg t)) then Returns (t, None)
  else if decide (stack_sz < housekeeping_autos_sz sizeof_sha256)
  then Stack_overflow
  else
    match fd_sequencer_tile_during_housekeeping t now wallclock hdr0 with
    | Some r => Returns r
    | None => Undefined
    end.

Definition step (t : fd_sequencer_tile) (ev : event)
  : option (fd_sequencer_tile * option block) :=
  match ev with
  | During_frag chunk sz =>
      t' ← fd_sequencer_tile_during_frag t chunk sz; Some (t', None)
  | After_frag opt_sig ticks =>
      t' ← fd_sequencer_tile_after_frag t opt_sig ticks; Some (t', None)
  | Housekeeping now wallclock hdr0 =>
      fd_sequencer_tile_during_housekeeping t now wallclock hdr0
  end.

(** Runs the callbacks in order and collects the blocks produced. *)
Fixpoint run_events (t : fd_sequencer_tile) (evs : list event)
  : option (fd_sequencer_tile * list block) :=
  match evs with
  | [] => Some (t, [])
  | ev :: evs' =>
      r ← step t ev;
      r' ← run_events r.1 evs';
      Some (r'.1, from_option (λ b, [b]) [] r.2 ++ r'.2)
  end.

(** Hash of the whole header of a block. *)
Definition block_hash (b : block) : list Z :=
  sha256 (hdr_full_bytes (blk_hdr b)).

(** Every block of [bs] names its predecessor's hash as parent, the
    first one names [h]. *)
Fixpoint chained (h : list Z) (bs : list block) : Prop :=
  match bs with
  | [] => True
  | b :: bs' => hdr_parent_hash (blk_hdr b) = h ∧ chained (block_hash b) bs'
  end.

(** The hash of the last block of [bs], or [h] when there is none. *)
Definition chain_end (h : list Z) (bs : list block) : list Z :=
  fold_left (λ _ b, block_hash b) bs h.

End Sequencer.

(** ** Scratch sizing and init *)

Definition fd_sequencer_tile_scratch_align : Z := FD_SEQUENCER_TILE_ALIGN.
Definition fd_sequencer_tile_scratch_footprint : Z := FD_SEQUENCER_TILE_FOOTPRINT.

(** [None] is the NULL return after the size check ([FD_LOG_ERR] only
    logs as far as this file shows).  [mem] is what the scratch region
    holds behind the tile struct, seen as an array of entries; [ticks] is
    what [fd_tickcount()] returns. *)
Definition fd_sequencer_tile_unprivileged_init (scratch_sz : Z)
    (mem : list fd_sequencer_txn) (ticks : Z) : option fd_sequencer_tile :=
  let required :=
    wrap64 (sizeof_tile + wrap64 (FD_SEQUENCER_QUEUE_MAX * sizeof_txn)) in
  if decide (scratch_sz < required) then None
  else
    Some (mk_tile (zeros 32) (zeros 64) 0 0 0 0 ticks (zeros 32)
            mem 0 FD_SEQUENCER_QUEUE_MAX 0 ticks FD_SEQUENCER_CFG_DEFAULT
            (zeros (Z.to_nat FD_SEQUENCER_TXN_MTU)) 0).

(** ** Specification vocabulary *)

(** The entries the queue holds: the first [tx_queue_cnt] array cells. *)
Definition stored (t : fd_sequencer_tile) : list fd_sequencer_txn :=
  take (Z.to_nat (tx_queue_cnt t)) (tx_queue t).

Definition fee_at (q : list fd_sequencer_txn) (i : Z) : Z :=
  from_option fee 0 (aget q i).

(** Max-heap property of the first [n] cells: every non-root cell's fee
    is at most its parent's. *)
Definition heap_ordered (q : list fd_sequencer_txn) (n : Z) : Prop :=
  ∀ i, 0 < i < n → fee_at q i <= fee_at q ((i - 1) / 2).

(** Executable form of [heap_ordered]. *)
Definition heap_orderedb (q : list fd_sequencer_txn) (n : Z) : bool :=
  forallb (λ k, let i := Z.of_nat k in fee_at q i <=? fee_at q ((i - 1) / 2))
          (seq 1 (Z.to_nat n - 1)).

(** The queue's bookkeeping is sound: the count is within the capacity,
    the array has [tx_queue_cap] cells, and a child index [2 * idx + 2]
    of a cell fits an [ulong]. *)
Definition queue_wf (t : fd_sequencer_tile) : Prop :=
  0 <= tx_queue_cnt t <= tx_queue_cap t ∧
  tx_queue_cap t <= Z.of_nat (length (tx_queue t)) ∧
  tx_queue_cap t < 2 ^ 63.

Definition queue_inv (t : fd_sequencer_tile) : Prop :=
  queue_wf t ∧ heap_ordered (tx_queue t) (tx_queue_cnt t).

(** Peek on a non-empty queue returns a stored entry of maximal fee. *)
Definition peek_is_max (t : fd_sequencer_tile) : Prop :=
  tx_queue_cnt t > 0 →
  ∃ x, fd_sequencer_txn_queue_peek t = Some x ∧ x ∈ stored t ∧
       ∀ y, y ∈ stored t → fee y <= fee x.

Inductive queue_op :=
  | Push (x : fd_sequencer_txn)
  | Pop.

Definition apply_op (t : fd_sequencer_tile) (op : queue_op)
  : option fd_sequencer_tile :=
  match op with
  | Push x => r ← fd_sequencer_txn_queue_push t x; Some r.1
  | Pop => r ← fd_sequencer_txn_queue_pop t; Some r.1
  end.

(** The tile after each operation of a sequence, in order. *)
Fixpoint run_ops (t : fd_sequencer_tile) (ops : list queue_op)
  : option (list fd_sequencer_tile) :=
  match ops with
  | [] => Some []
  | op :: ops' =>
      t1 ← apply_op t op;
      ts ← run_ops t1 ops';
      Some (t1 :: ts)
  end.

(** Pushes a list of entries in order, ignoring the return values. *)
Fixpoint push_all (t : fd_sequencer_tile) (xs : list fd_sequencer_txn)
  : option fd_sequencer_tile :=
  match xs with
  | [] => Some t
  | x :: xs' => r ← fd_sequencer_txn_queue_push t x; push_all r.1 xs'
  end.

Definition non_increasing (l : list Z) : Prop := Sorted (flip Z.le) l.

(** The bytes staged for the transaction in flight. *)
Definition staged (t : fd_sequencer_tile) : list Z :=
  take (Z.to_nat (frag_buf_sz t)) (frag_buf t).

(** What the callbacks rely on: a sound queue, a staging buffer of
    [FD_SEQUENCER_TXN_MTU] bytes of which at most that many are staged,
    and a nonzero epoch length. *)
Definition tile_inv (t : fd_sequencer_tile) : Prop :=
  queue_inv t ∧
  length (frag_buf t) = Z.to_nat FD_SEQUENCER_TXN_MTU ∧
  0 <= frag_buf_sz t <= FD_SEQUENCER_TXN_MTU ∧
  epoch_length_slots (cfg t) ≠ 0.

(** A fragment of at most the MTU lies in readable memory. *)
Definition event_ok (ev : event) : Prop :=
  match ev with
  | During_frag chunk sz =>
      0 <= sz ∧ (sz <= FD_SEQUENCER_TXN_MTU → sz <= Z.of_nat (length chunk))
  | _ => True
  end.

(** [s] is a nonzero multiple of [len]. *)
Definition nonzero_multiple (s len : Z) : Prop :=
  s ≠ 0 ∧ ∃ k, s = k * len.

(** One call of the slot-advance operation on [t] as the specification
    words it: the call returns, the slot has increased by 1 (on the
    64-bit counter), the epoch has increased by 1 with the flag set when
    the new slot is a nonzero multiple of the epoch length, and is as it
    was with the flag clear otherwise. *)
Definition advance_slot_claim (t : fd_sequencer_tile) : Prop :=
  ∃ t' flag,
    fd_sequencer_advance_slot t = Some (t', flag) ∧
    current_slot t' = wrap64 (current_slot t + 1) ∧
    (nonzero_multiple (current_slot t') (epoch_length_slots (cfg t)) →
     current_epoch t' = wrap64 (current_epoch t + 1) ∧ flag = 1) ∧
    (¬ nonzero_multiple (current_slot t') (epoch_length_slots (cfg t)) →
     current_epoch t' = current_epoch t ∧ flag = 0).

(** Loop invariant of the sift-up: the first [n] cells are heap ordered
    except that cell [k] may exceed its parent, and the children of [k]
    are at most the parent of [k]. *)
Definition up_inv (q : list fd_sequencer_txn) (n k : Z) : Prop :=
  (∀ i, 0 < i < n → i ≠ k → fee_at q i <= fee_at q ((i - 1) / 2)) ∧
  (∀ i, 0 < i < n → (i - 1) / 2 = k → 0 < k →
        fee_at q i <= fee_at q ((k - 1) / 2)).

(** Loop invariant of the sift-down: the first [n] cells are heap ordered
    except that the children of cell [k] may exceed it, and they are at
    most the parent of [k]. *)
Definition down_inv (q : list fd_sequencer_txn) (n k : Z) : Prop :=
  (∀ i, 0 < i < n → (i - 1) / 2 ≠ k → fee_at q i <= fee_at q ((i - 1) / 2)) ∧
  (∀ i, 0 < i < n → (i - 1) / 2 = k → 0 < k →
        fee_at q i <= fee_at q ((k - 1) / 2)).

(** Delivers the fragments of [frags] in order, each with its length as
    size. *)
Fixpoint deliver_all (t : fd_sequencer_tile) (frags : list (list Z))
  : option fd_sequencer_tile :=
  match frags with
  | [] => Some t
  | f :: frags' =>
      t' ← fd_sequencer_tile_during_frag t f (Z.of_nat (length f));
      deliver_all t' frags'
  end.

(** ** Example states *)

(** An entry that carries the fee [f] and an all-zero payload. *)
Definition example_txn (f : Z) : fd_sequencer_txn :=
  mk_txn (zeros (Z.to_nat FD_SEQUENCER_TXN_MTU)) 0 f 0 (zeros 64).

(** The tile as init leaves it, with a queue of [cap] cells. *)
Definition example_tile (cap : nat) : fd_sequencer_tile :=
  mk_tile (zeros 32) (zeros 64) 0 0 0 0 0 (zeros 32)
    (replicate cap txn_zero) 0 (Z.of_nat cap) 0 0 FD_SEQUENCER_CFG_DEFAULT
    (zeros (Z.to_nat FD_SEQUENCER_TXN_MTU)) 0.

(** A tile whose two-cell queue is full. *)
Definition full_tile : fd_sequencer_tile :=
  set_queue (example_tile 2) [example_txn 500; example_txn 100] 2.

(** Stand-ins for the hash and the signature, to run block assembly on
    examples; they are not the real primitives. *)
Definition example_sha256 (m : list Z) : list Z :=
  le_bytes 32 (foldl (λ a b, (a * 257 + b + 1) mod 2 ^ 256) 0 m).

Definition example_sign (msg pub priv : list Z) : list Z :=
  example_sha256 (priv ++ msg) ++ example_sha256 (pub ++ msg).

(** Sum of the fees of a list of entries, as an integer. *)
Definition sum_fees (xs : list fd_sequencer_txn) : Z :=
  foldr (λ x s, fee x + s) 0 xs.

(** The entries of all the blocks of a run, in order. *)
Definition all_txns (bs : list block) : list fd_sequencer_txn :=
  concat (map blk_txns bs).

(** The bytes of the six header fields before the signature. *)
Definition hdr_fields_bytes (h : fd_sequencer_block_hdr) : list Z :=
  le_bytes 8 (hdr_slot h) ++ hdr_parent_hash h ++ hdr_merkle_root h ++
  le_bytes 8 (hdr_timestamp h) ++ hdr_sequencer_pubkey h ++
  le_bytes 4 (hdr_txn_count h).

(** What one callback may change, read off the three callbacks: a
    callback that produces no block leaves the chain position and the
    fee total alone and enqueues at most one entry; one that produces
    block [b] advances the slot, dequeues the entries of [b], adds their
    fees and leaves the lifetime counter alone.  The configuration never
    changes. *)
Definition step_post (t : fd_sequencer_tile) (ob : option block)
    (t' : fd_sequencer_tile) : Prop :=
  cfg t' = cfg t ∧
  match ob with
  | None =>
      current_slot t' = current_slot t ∧
      current_epoch t' = current_epoch t ∧
      block_count t' = block_count t ∧
      fee_total t' = fee_total t ∧
      ((txn_count t' = txn_count t ∧ tx_queue_cnt t' = tx_queue_cnt t) ∨
       (txn_count t' = wrap64 (txn_count t + 1) ∧
        tx_queue_cnt t' = tx_queue_cnt t + 1))
  | Some b =>
      hdr_slot (blk_hdr b) = current_slot t ∧
      current_slot t' = wrap64 (current_slot t + 1) ∧
      block_count t' = wrap64 (block_count t + 1) ∧
      current_epoch t'
        = (if decide (wrap64 (current_slot t + 1) > 0 ∧
                      wrap64 (current_slot t + 1)
                        mod epoch_length_slots (cfg t) = 0)
           then wrap64 (current_epoch t + 1) else current_epoch t) ∧
      txn_count t' = txn_count t ∧
      blk_cnt b = Z.of_nat (length (blk_txns b)) ∧
      tx_queue_cnt t' = tx_queue_cnt t - blk_cnt b ∧
      wrap64 (fee_total t')
        = wrap64 (fee_total t + sum_fees (blk_txns b))
  end.

(** A run on the tile as init leaves it: one fragment delivered and
    completed, then two housekeeping calls one interval apart. *)
Definition example_events : list event :=
  [During_frag [1; 2; 3] 3; After_frag (Some 7000) 5;
   Housekeeping 400000000 1700000000000000000 hdr_zero;
   Housekeeping 800000000 1700000000400000000 hdr_zero].

(** ** Array lemmas *)

Lemma wrap64_small x : 0 <= x < 2 ^ 64 → wrap64 x = x.
Proof. intros. unfold wrap64. apply Z.mod_small. lia. Qed.

Lemma aget_lookup {A} (q : list A) i :
  0 <= i < Z.of_nat (length q) → ∃ x, aget q i = Some x.
Proof.
  intros Hi. unfold aget.
  destruct (lookup_lt_is_Some_2 q (Z.to_nat i)) as [x Hx]; [lia | eauto].
Qed.

Lemma aset_in_range {A} (q : list A) i x :
  0 <= i < Z.of_nat (length q) → aset q i x = Some (<[Z.to_nat i := x]> q).
Proof. intros Hi. unfold aset. rewrite decide_True; [done | lia]. Qed.

Lemma aget_insert {A} (q : list A) i k x :
  0 <= i < Z.of_nat (length q) → 0 <= k →
  aget (<[Z.to_nat i := x]> q) k = if decide (k = i) then Some x else aget q k.
Proof.
  intros Hi Hk. unfold aget. case_decide as Hki.
  - subst k. apply list_lookup_insert_eq. lia.
  - apply list_lookup_insert_ne. lia.
Qed.

(** What [swap] does to the cells. *)
Lemma swap_spec q i j :
  0 <= i < Z.of_nat (length q) → 0 <= j < Z.of_nat (length q) → i ≠ j →
  ∃ q', swap q i j = Some q' ∧ length q' = length q ∧
        (∀ k, 0 <= k →
           aget q' k = if decide (k = j) then aget q i
                       else if decide (k = i) then aget q j else aget q k).
Proof.
  intros Hi Hj Hij. unfold swap.
  destruct (aget_lookup q i Hi) as [x Hx].
  destruct (aget_lookup q j Hj) as [y Hy].
  rewrite Hx, Hy. simpl.
  rewrite (aset_in_range q i y Hi). simpl.
  rewrite aset_in_range by (rewrite length_insert; lia).
  eexists. split; [reflexivity |]. split.
  - by rewrite !length_insert.
  - intros k Hk.
    rewrite aget_insert by (rewrite ?length_insert; lia).
    case_decide; [done |].
    rewrite aget_insert by lia.
    case_decide; done.
Qed.

Lemma swap_fee_at q q' i j :
  (∀ k, 0 <= k →
     aget q' k = if decide (k = j) then aget q i
                 else if decide (k = i) then aget q j else aget q k) →
  ∀ k, 0 <= k →
    fee_at q' k = if decide (k = j) then fee_at q i
                  else if decide (k = i) then fee_at q j else fee_at q k.
Proof.
  intros H k Hk. unfold fee_at. rewrite H by done.
  repeat case_decide; done.
Qed.

Lemma delete_insert_same {A} (l : list A) i y :
  delete i (<[i:=y]> l) = delete i l.
Proof.
  revert i. induction l as [|a l IH]; intros [|i]; simpl; try done.
  by rewrite IH.
Qed.

Lemma insert_Permutation {A} (l : list A) i x y :
  l !! i = Some x → <[i:=y]> l ≡ₚ y :: delete i l.
Proof.
  intros H. rewrite <- (delete_insert_same l i y).
  apply delete_Permutation, list_lookup_insert_eq.
  by eapply lookup_lt_Some.
Qed.

Lemma insert_swap_Permutation {A} (l : list A) i j x y :
  i ≠ j → l !! i = Some x → l !! j = Some y →
  <[j:=x]> (<[i:=y]> l) ≡ₚ l.
Proof.
  intros Hij Hx Hy.
  assert (Hj : <[i:=y]> l !! j = Some y) by (by rewrite list_lookup_insert_ne).
  rewrite (insert_Permutation _ j y x Hj).
  rewrite (delete_Permutation l i x Hx) at 2.
  apply Permutation_skip, (Permutation_cons_inv (a := y)).
  rewrite <- (delete_Permutation _ j y Hj).
  by apply insert_Permutation with x.
Qed.

(** [swap] inside the first [n] cells permutes them. *)
Lemma swap_perm q q' i j (n : nat) :
  0 <= i → 0 <= j → i ≠ j →
  (Z.to_nat i < n)%nat → (Z.to_nat j < n)%nat → (n <= length q)%nat →
  swap q i j = Some q' → take n q' ≡ₚ take n q.
Proof.
  intros Hi Hj Hij Hin Hjn Hn. unfold swap, aget, aset.
  destruct (q !! Z.to_nat i) as [x|] eqn:Hx; [simpl | done].
  destruct (q !! Z.to_nat j) as [y|] eqn:Hy; [simpl | done].
  rewrite decide_True by lia. simpl.
  rewrite decide_True by (rewrite length_insert; lia).
  intros [= <-].
  rewrite !take_insert_lt by done.
  apply insert_swap_Permutation; [lia | |]; by rewrite lookup_take_lt.
Qed.

Lemma heap_orderedb_correct q n :
  heap_orderedb q n = true ↔ heap_ordered q n.
Proof.
  unfold heap_orderedb, heap_ordered. rewrite forallb_forall. split.
  - intros H i Hi. specialize (H (Z.to_nat i)).
    rewrite Z2Nat.id in H by lia. apply Z.leb_le, H, in_seq. lia.
  - intros H k Hk. apply in_seq in Hk. apply Z.leb_le, H. lia.
Qed.

(** ** Sift-up restores the heap *)

(** Closes an order goal on fees after the case analysis on indices: the
    parent index of a cell may be known under another name. *)
Ltac fee_lia :=
  first
    [ lia
    | match goal with
      | H : (_ - 1) / 2 = _ |- _ => rewrite H in *; lia
      end ].

Lemma sift_up_correct fuel : ∀ q idx n,
  0 <= idx < n → n <= Z.of_nat (length q) → n <= 2 ^ 64 →
  idx <= Z.of_nat fuel → up_inv q n idx →
  ∃ q', sift_up fuel q idx = Some q' ∧ length q' = length q ∧
        heap_ordered q' n ∧
        take (Z.to_nat n) q' ≡ₚ take (Z.to_nat n) q.
Proof.
  induction fuel as [|fuel IH]; intros q idx n Hidx Hlen Hn Hfuel [H1 H2].
  - assert (idx = 0) as -> by lia. simpl.
    exists q. repeat split; try done. intros i Hi. apply H1; lia.
  - simpl. case_decide as Hpos.
    2: { exists q. repeat split; try done. intros i Hi. apply H1; lia. }
    rewrite wrap64_small by lia.
    set (p := (idx - 1) / 2).
    assert (Hp : 0 <= p < idx) by (unfold p; lia).
    destruct (aget_lookup q p) as [xp Hxp]; [lia |].
    destruct (aget_lookup q idx) as [xc Hxc]; [lia |].
    rewrite Hxp, Hxc. simpl.
    assert (Hfp : fee_at q p = fee xp) by (unfold fee_at; by rewrite Hxp).
    assert (Hfc : fee_at q idx = fee xc) by (unfold fee_at; by rewrite Hxc).
    case_decide as Hcmp.
    + exists q. repeat split; try done. intros i Hi.
      destruct (decide (i = idx)) as [-> | Hne]; [fold p; lia | by apply H1].
    + destruct (swap_spec q idx p) as (q' & Hsw & Hlen' & Hget); [lia .. |].
      rewrite Hsw. simpl.
      pose proof (swap_fee_at _ _ _ _ Hget) as Hfee.
      destruct (IH q' p n) as (q'' & Hq'' & Hlen'' & Hheap & Hperm);
        [lia | lia | lia | lia | | ].
      * split.
        -- intros i Hi Hip.
           rewrite !Hfee by lia.
           pose proof (H1 i Hi) as H1i. pose proof (H2 i Hi) as H2i.
           fold p in H2i.
           repeat case_decide; fee_lia.
        -- intros i Hi Hip Hp0.
           rewrite !Hfee by lia.
           pose proof (H1 i Hi) as H1i. pose proof (H1 p) as H1p.
           repeat case_decide; fee_lia.
      * exists q''. repeat split; [done | lia | done |].
        rewrite Hperm. eapply swap_perm; [| | | | | | exact Hsw]; lia.
Qed.

Lemma fee_at_insert q i k x :
  0 <= i < Z.of_nat (length q) → 0 <= k →
  fee_at (<[Z.to_nat i := x]> q) k = if decide (k = i) then fee x else fee_at q k.
Proof.
  intros Hi Hk. unfold fee_at. rewrite aget_insert by done.
  by case_decide.
Qed.

(** ** Sift-down restores the heap *)

Lemma pick_spec q cnt c best :
  0 <= c → 0 <= best < Z.of_nat (length q) → cnt <= Z.of_nat (length q) →
  pick q cnt c best =
    Some (if decide (c < cnt ∧ fee_at q c > fee_at q best) then c else best).
Proof.
  intros Hc Hb Hn. unfold pick, fee_at. case_decide as Hlt.
  - destruct (aget_lookup q c) as [x Hx]; [lia |].
    destruct (aget_lookup q best) as [b Hb'].
    { lia. }
    rewrite Hx, Hb'. simpl.
    repeat case_decide; done || (exfalso; tauto).
  - rewrite decide_False; [done | tauto].
Qed.

(** The cell the sift-down body selects: [idx] itself when no child
    exceeds it, else a child that exceeds [idx] and is at least the other
    child. *)
Lemma best_cases q n idx :
  let l := 2 * idx + 1 in
  let r := 2 * idx + 2 in
  let b1 := if decide (l < n ∧ fee_at q l > fee_at q idx) then l else idx in
  let b2 := if decide (r < n ∧ fee_at q r > fee_at q b1) then r else b1 in
  (b2 = idx ∧ (l < n → fee_at q l <= fee_at q idx) ∧
               (r < n → fee_at q r <= fee_at q idx)) ∨
  ((b2 = l ∨ b2 = r) ∧ b2 < n ∧ fee_at q idx < fee_at q b2 ∧
   (l < n → fee_at q l <= fee_at q b2) ∧ (r < n → fee_at q r <= fee_at q b2)).
Proof.
  intros l r b1 b2. unfold b2, b1.
  repeat case_decide; try (left; lia); right; repeat split; auto; try lia.
Qed.

Lemma sift_down_correct n fuel : n < 2 ^ 63 → ∀ q idx,
  0 <= idx < n → n <= Z.of_nat (length q) →
  n - idx <= Z.of_nat fuel → down_inv q n idx →
  ∃ q', sift_down fuel q n idx = Some q' ∧ length q' = length q ∧
        heap_ordered q' n ∧
        take (Z.to_nat n) q' ≡ₚ take (Z.to_nat n) q.
Proof.
  intros Hn.
  induction fuel as [|fuel IH]; intros q idx Hidx Hlen Hfuel [H1 H2];
    [lia |].
  simpl. rewrite !wrap64_small by lia.
  rewrite pick_spec by lia. simpl.
  rewrite pick_spec by (try case_decide; lia). simpl.
  pose proof (best_cases q n idx) as Hbest. cbv zeta in Hbest.
  set (b := if decide (2 * idx + 2 < n ∧ _) then _ else _) in *.
  clearbody b.
  destruct Hbest as [(Hb & Hl & Hr) | (Hb & Hbn & Hgt & Hl & Hr)].
  - rewrite decide_True by done.
    exists q. repeat split; try done. intros i Hi.
    destruct (decide ((i - 1) / 2 = idx)) as [Hpar | Hpar]; [| by apply H1].
    rewrite Hpar.
    assert (i = 2 * idx + 1 ∨ i = 2 * idx + 2) as [-> | ->] by lia; auto with lia.
  - rewrite decide_False by lia.
    assert (Hpb : (b - 1) / 2 = idx) by lia.
    destruct (swap_spec q idx b) as (q' & Hsw & Hlen' & Hget); [lia .. |].
    rewrite Hsw. simpl.
    pose proof (swap_fee_at _ _ _ _ Hget) as Hfee.
    destruct (IH q' b) as (q'' & Hq'' & Hlen'' & Hheap & Hperm);
      [lia | lia | lia | | ].
    + split.
      * intros i Hi Hip.
        destruct (decide ((i - 1) / 2 = idx)) as [Hpar | Hpar].
        -- rewrite Hpar, !Hfee by lia.
           assert (i = 2 * idx + 1 ∨ i = 2 * idx + 2) as [-> | ->] by lia;
             repeat case_decide; auto with lia.
        -- rewrite !Hfee by lia.
           pose proof (H1 i Hi Hpar) as H1i. pose proof (H2 b) as H2b.
           repeat case_decide; subst; auto with lia.
      * intros i Hi Hip Hb0.
        rewrite Hpb, !Hfee by lia.
        pose proof (H1 i Hi) as H1i. rewrite Hip in H1i.
        repeat case_decide; lia.
    + exists q''. repeat split; [done | lia | done |].
      rewrite Hperm. eapply swap_perm; [| | | | | | exact Hsw]; lia.
Qed.

(** ** The fuel does not show in the result

    A loop that ends within [n] iterations gives the same cells with any
    larger bound. *)

Lemma sift_up_fuel n : ∀ m q idx r,
  (n <= m)%nat → sift_up n q idx = Some r → sift_up m q idx = Some r.
Proof.
  induction n as [|n IH]; intros m q idx r Hle H.
  - simpl in H. case_decide; [done |].
    destruct m; simpl; by rewrite decide_False.
  - destruct m as [|m]; [lia |]. simpl in *.
    case_decide; [| done].
    destruct (aget q (wrap64 (idx - 1) / 2)); simpl in *; [| done].
    destruct (aget q idx); simpl in *; [| done].
    case_decide; [done |].
    destruct (swap q idx (wrap64 (idx - 1) / 2)); simpl in *; [| done].
    apply IH; [lia | done].
Qed.

Lemma sift_down_fuel n : ∀ m q cnt idx r,
  (n <= m)%nat → sift_down n q cnt idx = Some r →
  sift_down m q cnt idx = Some r.
Proof.
  induction n as [|n IH]; intros m q cnt idx r Hle H; [done |].
  destruct m as [|m]; [lia |]. simpl in *.
  destruct (pick q cnt (wrap64 (2 * idx + 1)) idx) as [b1 |]; simpl in *;
    [| done].
  destruct (pick q cnt (wrap64 (2 * idx + 2)) b1) as [b2 |]; simpl in *;
    [| done].
  case_decide; [done |].
  destruct (swap q idx b2); simpl in *; [| done].
  apply IH; [lia | done].
Qed.

(** ** Push and pop keep the queue invariant *)

Lemma push_correct t x :
  queue_inv t → tx_queue_cnt t < tx_queue_cap t →
  ∃ q', fd_sequencer_txn_queue_push t x
          = Some (set_queue t q' (tx_queue_cnt t + 1), 1) ∧
        queue_inv (set_queue t q' (tx_queue_cnt t + 1)) ∧
        stored (set_queue t q' (tx_queue_cnt t + 1)) ≡ₚ x :: stored t.
Proof.
  intros [(Hcnt & Hlen & Hcap) Hheap] Hroom.
  unfold fd_sequencer_txn_queue_push.
  rewrite decide_False by lia.
  rewrite wrap64_small by lia.
  rewrite aset_in_range by lia. simpl.
  set (n := tx_queue_cnt t) in *.
  set (q1 := <[Z.to_nat n := x]> (tx_queue t)).
  assert (Hlen1 : length q1 = length (tx_queue t)) by apply length_insert.
  destruct (sift_up_correct (Z.to_nat n) q1 n (n + 1))
    as (q' & Hq' & Hlen' & Hheap' & Hperm); [lia | lia | lia | lia | |].
  { split.
    - intros i Hi Hne. unfold q1. rewrite !fee_at_insert by lia.
      rewrite !decide_False by lia. apply Hheap. lia.
    - intros i Hi Hpar Hpos. lia. }
  rewrite Hq'. simpl. exists q'. split; [done |]. split.
  - split; [| done]. unfold queue_wf. simpl. lia.
  - unfold stored. simpl. fold n.
    replace (Z.to_nat (n + 1)) with (S (Z.to_nat n)) in * by lia.
    rewrite Hperm. unfold q1.
    rewrite (take_S_r _ _ x) by (apply list_lookup_insert_eq; lia).
    rewrite take_insert_ge by lia.
    by rewrite Permutation_app_comm.
Qed.

Lemma pop_correct t :
  queue_inv t → tx_queue_cnt t > 0 →
  ∃ q' out, fd_sequencer_txn_queue_pop t
              = Some (set_queue t q' (tx_queue_cnt t - 1), Some out) ∧
            aget (tx_queue t) 0 = Some out ∧
            queue_inv (set_queue t q' (tx_queue_cnt t - 1)) ∧
            out :: stored (set_queue t q' (tx_queue_cnt t - 1)) ≡ₚ stored t.
Proof.
  intros [(Hcnt & Hlen & Hcap) Hheap] Hpos.
  unfold fd_sequencer_txn_queue_pop.
  rewrite decide_False by lia.
  rewrite wrap64_small by lia.
  destruct (aget_lookup (tx_queue t) 0) as [out Hout]; [lia |].
  rewrite Hout. simpl.
  set (n := tx_queue_cnt t) in *.
  assert (Hstored : stored t = take (Z.to_nat (n - 1)) (tx_queue t)
                                 ++ from_option (λ y, [y]) [] (aget (tx_queue t) (n - 1))).
  { destruct (aget_lookup (tx_queue t) (n - 1)) as [y Hy]; [lia |].
    rewrite Hy. simpl. unfold stored. fold n.
    replace (Z.to_nat n) with (S (Z.to_nat (n - 1))) by lia.
    by apply take_S_r. }
  case_decide as Hmore.
  - destruct (aget_lookup (tx_queue t) (n - 1)) as [y Hy]; [lia |].
    rewrite Hy in *. simpl in *.
    rewrite aset_in_range by lia. simpl.
    set (q1 := <[Z.to_nat 0 := y]> (tx_queue t)).
    assert (Hlen1 : length q1 = length (tx_queue t)) by apply length_insert.
    destruct (sift_down_correct (n - 1) (Z.to_nat (n - 1)) ltac:(lia) q1 0)
      as (q' & Hq' & Hlen' & Hheap' & Hperm); [lia | lia | lia | |].
    { split.
      - intros i Hi Hpar. unfold q1. rewrite !fee_at_insert by lia.
        rewrite !decide_False by lia. apply Hheap. lia.
      - intros i Hi Hpar H0. lia. }
    rewrite Hq'. simpl. exists q', out. split; [done |]. split; [done |]. split.
    + split; [| done]. unfold queue_wf. simpl. lia.
    + unfold stored at 1. simpl. rewrite Hperm, Hstored. unfold q1.
      rewrite take_insert_lt by lia.
      unfold aget in Hout. change (Z.to_nat 0) with 0%nat in *.
      destruct (tx_queue t) as [|z q]; [done |]. simplify_eq/=.
      replace (Z.to_nat (n - 1)) with (S (Z.to_nat (n - 2))) by lia.
      simpl. by rewrite (Permutation_app_comm _ [y]).
  - exists (tx_queue t), out. split; [done |]. split; [done |]. split.
    + split; [unfold queue_wf; simpl; lia |].
      simpl. intros i Hi. lia.
    + unfold stored. simpl. fold n. assert (n = 1) as -> by lia.
      unfold aget in Hout. change (Z.to_nat 0) with 0%nat in *.
      destruct (tx_queue t) as [|z q]; [done |]. by simplify_eq/=.
Qed.

(** In a heap no cell has a larger fee than the root. *)
Lemma heap_root_max q n :
  heap_ordered q n → ∀ i, 0 <= i < n → fee_at q i <= fee_at q 0.
Proof.
  intros Hheap i Hi.
  assert (Hfuel : ∃ k : nat, i <= Z.of_nat k) by (exists (Z.to_nat i); lia).
  destruct Hfuel as [k Hk]. revert i Hi Hk.
  induction k as [|k IH]; intros i Hi Hk.
  - assert (i = 0) as -> by lia. lia.
  - destruct (decide (i = 0)) as [-> | Hne]; [lia |].
    etrans; [apply Hheap; lia |]. apply IH; lia.
Qed.

Lemma queue_inv_peek t : queue_inv t → peek_is_max t.
Proof.
  intros [(Hcnt & Hlen & Hcap) Hheap] Hpos.
  unfold fd_sequencer_txn_queue_peek. rewrite decide_False by lia.
  destruct (aget_lookup (tx_queue t) 0) as [x Hx]; [lia |].
  exists x. split; [done |]. split.
  - unfold stored. apply list_elem_of_lookup. exists 0%nat.
    rewrite lookup_take_lt by lia. exact Hx.
  - intros y Hy. unfold stored in Hy.
    apply list_elem_of_lookup in Hy as [k Hk].
    apply lookup_take_Some in Hk as [Hk Hlt].
    pose proof (heap_root_max _ _ Hheap (Z.of_nat k) ltac:(lia)) as Hmax.
    unfold fee_at, aget in Hmax. rewrite Nat2Z.id, Hk in Hmax.
    unfold aget in Hx. rewrite Hx in Hmax. exact Hmax.
Qed.

Lemma set_queue_set_queue t q c q' c' :
  set_queue (set_queue t q c) q' c' = set_queue t q' c'.
Proof. done. Qed.

Lemma set_queue_id t : set_queue t (tx_queue t) (tx_queue_cnt t) = t.
Proof. by destruct t. Qed.

Lemma pop_empty t :
  tx_queue_cnt t = 0 → fd_sequencer_txn_queue_pop t = Some (t, None).
Proof.
  intros H. unfold fd_sequencer_txn_queue_pop. by rewrite decide_True.
Qed.

Lemma push_full t x :
  tx_queue_cnt t >= tx_queue_cap t →
  fd_sequencer_txn_queue_push t x = Some (t, 0).
Proof.
  intros H. unfold fd_sequencer_txn_queue_push. by rewrite decide_True.
Qed.

(** The popped entry has the largest fee of the stored ones. *)
Lemma pop_max t out :
  queue_inv t → tx_queue_cnt t > 0 → aget (tx_queue t) 0 = Some out →
  ∀ y, y ∈ stored t → fee y <= fee out.
Proof.
  intros Hinv Hpos Hout.
  destruct (queue_inv_peek t Hinv Hpos) as (x & Hx & _ & Hmax).
  unfold fd_sequencer_txn_queue_peek in Hx.
  rewrite decide_False in Hx by lia. by simplify_eq.
Qed.

(** ** Draining *)

Lemma drain_correct k : ∀ t,
  queue_inv t →
  ∃ t' ys, drain k t = Some (t', ys) ∧ queue_inv t' ∧
           t' = set_queue t (tx_queue t') (tx_queue_cnt t') ∧
           Z.of_nat (length ys) = Z.min (Z.of_nat k) (tx_queue_cnt t) ∧
           tx_queue_cnt t' = tx_queue_cnt t - Z.of_nat (length ys) ∧
           ys ++ stored t' ≡ₚ stored t ∧
           non_increasing (map fee ys).
Proof.
  induction k as [|k IH]; intros t Hinv.
  - exists t, []. simpl. split_and!; try done.
    + by rewrite set_queue_id.
    + destruct Hinv as [(? & _) _]. lia.
    + lia.
    + constructor.
  - simpl. destruct (decide (tx_queue_cnt t = 0)) as [Hz | Hnz].
    + rewrite pop_empty by done. simpl.
      exists t, []. simpl. split_and!; try done.
      * by rewrite set_queue_id.
      * lia.
      * lia.
      * constructor.
    + assert (Hpos : tx_queue_cnt t > 0) by (destruct Hinv as [(? & _) _]; lia).
      destruct (pop_correct t Hinv Hpos) as (q1 & out & Hpop & Hout & Hinv1 & Hperm1).
      rewrite Hpop. simpl.
      destruct (IH _ Hinv1) as (t' & ys & Hdr & Hinv' & Heq & Hlen & Hcnt & Hperm & Hsort).
      rewrite Hdr. simpl. exists t', (out :: ys).
      split; [done |]. split; [done |]. split.
      { rewrite Heq at 1. by rewrite set_queue_set_queue. }
      simpl in *. split; [lia |]. split; [lia |]. split.
      { by rewrite Hperm. }
      constructor; [done |].
      destruct ys as [|y ys]; constructor. unfold flip.
      apply (pop_max t out Hinv Hpos Hout).
      rewrite <- Hperm1, <- Hperm.
      rewrite elem_of_cons, elem_of_app, elem_of_cons. tauto.
Qed.

Lemma push_all_correct xs : ∀ t,
  queue_inv t → tx_queue_cnt t + Z.of_nat (length xs) <= tx_queue_cap t →
  ∃ t', push_all t xs = Some t' ∧ queue_inv t' ∧
        tx_queue_cnt t' = tx_queue_cnt t + Z.of_nat (length xs) ∧
        stored t' ≡ₚ xs ++ stored t.
Proof.
  induction xs as [|x xs IH]; intros t Hinv Hroom.
  - exists t. simpl. split_and!; try done. lia.
  - simpl in *.
    destruct (push_correct t x Hinv) as (q1 & Hpush & Hinv1 & Hperm1); [lia |].
    rewrite Hpush. simpl.
    destruct (IH _ Hinv1) as (t' & Hall & Hinv' & Hcnt & Hperm); [simpl; lia |].
    exists t'. split; [done |]. split; [done |]. simpl in *. split; [lia |].
    rewrite Hperm, Hperm1. by rewrite Permutation_middle.
Qed.

(** ** The queue under arbitrary operations *)

Lemma apply_op_inv t op :
  queue_inv t → ∃ t1, apply_op t op = Some t1 ∧ queue_inv t1.
Proof.
  intros Hinv. destruct op as [x |]; simpl.
  - destruct (decide (tx_queue_cnt t >= tx_queue_cap t)) as [Hfull | Hroom].
    + rewrite push_full by done. simpl. eauto.
    + destruct (push_correct t x Hinv) as (q' & Hpush & Hinv' & _); [lia |].
      rewrite Hpush. simpl. eauto.
  - destruct (decide (tx_queue_cnt t = 0)) as [Hz | Hnz].
    + rewrite pop_empty by done. simpl. eauto.
    + assert (Hpos : tx_queue_cnt t > 0) by (destruct Hinv as [(? & _) _]; lia).
      destruct (pop_correct t Hinv Hpos) as (q' & out & Hpop & _ & Hinv' & _).
      rewrite Hpop. simpl. eauto.
Qed.

(** C1.  Start from a queue that satisfies the invariant (the empty queue
    init builds does) and apply any sequence of pushes and pops (a push
    on a full queue or a pop on an empty one fails and changes nothing).
    Every operation returns, and after each operation the stored entries
    form a max-heap by fee, the count is within the capacity, and peek on
    a non-empty queue returns a stored entry of maximal fee. *)
Theorem queue_heap_invariant t ops :
  queue_inv t →
  ∃ ts, run_ops t ops = Some ts ∧ length ts = length ops ∧
        Forall (λ s, heap_ordered (tx_queue s) (tx_queue_cnt s) ∧
                     0 <= tx_queue_cnt s <= tx_queue_cap s ∧
                     peek_is_max s) ts.
Proof.
  revert t. induction ops as [|op ops IH]; intros t Hinv; simpl.
  - exists []. by split_and!.
  - destruct (apply_op_inv t op Hinv) as (t1 & Hop & Hinv1).
    rewrite Hop. simpl.
    destruct (IH t1 Hinv1) as (ts & Hrun & Hlen & Hall).
    rewrite Hrun. simpl. exists (t1 :: ts). split_and!; [done | simpl; lia |].
    constructor; [| done]. split_and!.
    + apply Hinv1.
    + apply Hinv1.
    + apply Hinv1.
    + by apply queue_inv_peek.
Qed.

Lemma queue_heap_invariant_witness :
  ∃ ts, run_ops (example_tile 4)
          [Push (example_txn 100); Push (example_txn 500); Pop;
           Push (example_txn 200); Push (example_txn 900); Pop; Pop; Pop]
        = Some ts ∧ length ts = 8%nat ∧
        Forall (λ s, heap_ordered (tx_queue s) (tx_queue_cnt s) ∧
                     0 <= tx_queue_cnt s <= tx_queue_cap s ∧
                     peek_is_max s) ts.
Proof.
  apply (queue_heap_invariant (example_tile 4)).
  split.
  - unfold queue_wf. simpl. lia.
  - intros i Hi. simpl in Hi. lia.
Defined.

(** C7.  A push into a queue whose count equals its capacity returns 0
    and leaves the tile (count and cells included) as it was; a pop from
    a queue whose count is 0 returns 0, writes nothing to the output and
    leaves the tile as it was. *)
Theorem queue_full_and_empty t x :
  (tx_queue_cnt t = tx_queue_cap t →
   fd_sequencer_txn_queue_push t x = Some (t, 0)) ∧
  (tx_queue_cnt t = 0 →
   fd_sequencer_txn_queue_pop t = Some (t, None)).
Proof.
  split; intros H.
  - apply push_full. lia.
  - by apply pop_empty.
Qed.

Lemma queue_full_and_empty_witness :
  fd_sequencer_txn_queue_push full_tile (example_txn 900)
    = Some (full_tile, 0) ∧
  fd_sequencer_txn_queue_pop (example_tile 2) = Some (example_tile 2, None).
Proof.
  split.
  - apply (queue_full_and_empty full_tile (example_txn 900)). reflexivity.
  - apply (queue_full_and_empty (example_tile 2) (example_txn 900)). reflexivity.
Defined.

(** ** Drain order *)

Lemma fees_sorted_unique (l1 l2 : list Z) :
  non_increasing l1 → non_increasing l2 → l1 ≡ₚ l2 → l1 = l2.
Proof.
  unfold non_increasing. intros H1 H2 Hp.
  assert (Transitive (flip Z.le)) by (intros a b c; unfold flip; lia).
  assert (AntiSymm (=) (flip Z.le)) by (intros a b; unfold flip; lia).
  by apply (Sorted_unique (flip Z.le)).
Qed.

(** C4.  Draining [k] entries, [k] at most the count, by repeated pop
    from a queue that satisfies the invariant returns [k] entries whose
    fees are non-increasing.  And pushing entries with the fees
    100, 500, 200, 900, 300 into an empty queue of capacity at least 5
    gives a queue on which peek returns an entry of fee 900 and from
    which five pops return the fees 900, 500, 300, 200, 100. *)
Theorem drain_order :
  (∀ t (k : nat), queue_inv t → Z.of_nat k <= tx_queue_cnt t →
     ∃ t' ys, drain k t = Some (t', ys) ∧ length ys = k ∧
              non_increasing (map fee ys)) ∧
  (∀ t xs, queue_inv t → tx_queue_cnt t = 0 → 5 <= tx_queue_cap t →
     map fee xs = [100; 500; 200; 900; 300] →
     ∃ t1 top t2 ys,
       push_all t xs = Some t1 ∧
       fd_sequencer_txn_queue_peek t1 = Some top ∧ fee top = 900 ∧
       drain 5 t1 = Some (t2, ys) ∧
       map fee ys = [900; 500; 300; 200; 100]).
Proof.
  split.
  - intros t k Hinv Hk.
    destruct (drain_correct k t Hinv) as (t' & ys & Hdr & _ & _ & Hlen & _ & _ & Hs).
    exists t', ys. split_and!; [done | lia | done].
  - intros t xs Hinv Hz Hcap Hfees.
    assert (Hlen : length xs = 5%nat)
      by (rewrite <- (length_map fee), Hfees; reflexivity).
    destruct (push_all_correct xs t Hinv) as (t1 & Hpush & Hinv1 & Hcnt1 & Hperm1);
      [lia |].
    assert (Hst : stored t = []) by (unfold stored; rewrite Hz; reflexivity).
    rewrite Hst, app_nil_r in Hperm1.
    destruct (queue_inv_peek t1 Hinv1) as (top & Hpeek & Htop & Hmax); [lia |].
    destruct (drain_correct 5 t1 Hinv1)
      as (t2 & ys & Hdr & _ & _ & Hlen2 & Hcnt2 & Hperm2 & Hsort).
    exists t1, top, t2, ys. split_and!; try done.
    + assert (Hin : fee top ∈ [100; 500; 200; 900; 300]).
      { rewrite <- Hfees, <- Hperm1. by apply list_elem_of_fmap_2. }
      assert (H900 : (900 : Z) ∈ map fee (stored t1)).
      { rewrite Hperm1, Hfees. rewrite !elem_of_cons. tauto. }
      apply list_elem_of_fmap in H900 as (y & Hy & Hyin).
      apply Hmax in Hyin.
      rewrite !elem_of_cons, elem_of_nil in Hin. lia.
    + apply fees_sorted_unique; [done | |].
      * unfold non_increasing, flip. repeat constructor; lia.
      * assert (Hst2 : stored t2 = []).
        { apply length_zero_iff_nil. unfold stored. rewrite length_take. lia. }
        rewrite Hst2, app_nil_r in Hperm2.
        rewrite Hperm2, Hperm1, Hfees.
        by apply (bool_decide_unpack _).
Qed.

Lemma drain_order_witness :
  (∃ t' ys, drain 2 full_tile = Some (t', ys) ∧ length ys = 2%nat ∧
            non_increasing (map fee ys)) ∧
  (∃ t1 top t2 ys,
     push_all (example_tile 8) (map example_txn [100; 500; 200; 900; 300])
       = Some t1 ∧
     fd_sequencer_txn_queue_peek t1 = Some top ∧ fee top = 900 ∧
     drain 5 t1 = Some (t2, ys) ∧
     map fee ys = [900; 500; 300; 200; 100]).
Proof.
  split.
  - apply (proj1 drain_order full_tile 2%nat).
    + split.
      * unfold queue_wf. simpl. lia.
      * intros i Hi. simpl in Hi. assert (i = 1) as -> by lia. vm_compute.
        discriminate.
    + simpl. lia.
  - apply (proj2 drain_order (example_tile 8)).
    + split.
      * unfold queue_wf. simpl. lia.
      * intros i Hi. simpl in Hi. lia.
    + reflexivity.
    + simpl. lia.
    + reflexivity.
Defined.

(** ** Slot and epoch *)

(** C5 as stated fails: with an epoch length of 0 the call at slot 5
    takes the remainder of 6 by 0 and does not return, so it neither
    advances the slot nor reports a flag. *)
Lemma advance_slot_counterexample :
  ¬ advance_slot_claim
      (mk_tile (zeros 32) (zeros 64) 5 0 5 0 0 (zeros 32) [] 0 0 0 0
         (mk_cfg 400000000 10000 0) (zeros 1232) 0).
Proof.
  intros (t' & flag & Hcall & _). vm_compute in Hcall. discriminate.
Qed.

(** C5, amended.  Every call of the slot-advance operation on a tile
    whose epoch length is not 0 returns, increases the slot by exactly 1
    on the 64-bit counter (the largest value is followed by 0), and
    increases the epoch by exactly 1, likewise, with flag 1 if and only
    if the new slot is a nonzero multiple of the epoch length; otherwise
    it leaves the epoch as it was with flag 0.  In particular the wrap of
    the slot to 0 is no epoch boundary. *)
Theorem advance_slot_spec t :
  epoch_length_slots (cfg t) ≠ 0 → advance_slot_claim t.
Proof.
  intros Hlen.
  unfold advance_slot_claim, fd_sequencer_advance_slot, nonzero_multiple.
  set (slot := wrap64 (current_slot t + 1)).
  assert (Hrange : 0 <= slot < 2 ^ 64)
    by (unfold slot, wrap64; apply Z.mod_pos_bound; lia).
  case_decide as Hpos.
  - rewrite decide_False by done.
    case_decide as Hmod; eexists _, _; (split; [reflexivity |]); simpl.
    + split_and!; [done | done |].
      intros Hno. exfalso. apply Hno. split; [lia |].
      exists (slot / epoch_length_slots (cfg t)).
      apply Z.div_exact in Hmod; [| done]. lia.
    + split_and!; [done | | done].
      intros [_ [k Hk]]. exfalso. apply Hmod.
      rewrite Hk. by apply Z.mod_mul.
  - eexists _, _. split; [reflexivity |]. simpl.
    split_and!; [done | | done].
    intros [Hnz _]. lia.
Qed.

(** The theorem at an epoch boundary, and at the largest slot, whose
    successor 0 is a multiple of the epoch length but not a nonzero one. *)
Lemma advance_slot_spec_witness :
  (∃ t' flag,
     fd_sequencer_advance_slot
       (set_position (example_tile 2) 431999 0 431999) = Some (t', flag) ∧
     current_slot t' = wrap64 (431999 + 1) ∧
     (nonzero_multiple (current_slot t') 432000 →
      current_epoch t' = wrap64 (0 + 1) ∧ flag = 1) ∧
     (¬ nonzero_multiple (current_slot t') 432000 →
      current_epoch t' = 0 ∧ flag = 0)) ∧
  (∃ t' flag,
     fd_sequencer_advance_slot
       (set_position (example_tile 2) (2 ^ 64 - 1) 5 7) = Some (t', flag) ∧
     current_slot t' = wrap64 (2 ^ 64 - 1 + 1) ∧
     (nonzero_multiple (current_slot t') 432000 →
      current_epoch t' = wrap64 (5 + 1) ∧ flag = 1) ∧
     (¬ nonzero_multiple (current_slot t') 432000 →
      current_epoch t' = 5 ∧ flag = 0)).
Proof.
  split.
  - apply (advance_slot_spec (set_position (example_tile 2) 431999 0 431999)).
    simpl. lia.
  - apply (advance_slot_spec (set_position (example_tile 2) (2 ^ 64 - 1) 5 7)).
    simpl. lia.
Defined.

(** ** Fragment staging *)

(** C8.  A fragment larger than the MTU resets the staged size to 0 and
    leaves the queue and the transaction counter as they were; the
    completion callback that follows finds nothing staged and leaves the
    tile as it is, so nothing is pushed. *)
Theorem oversized_fragment_dropped t chunk sz opt_sig ticks :
  sz > FD_SEQUENCER_TXN_MTU →
  ∃ t', fd_sequencer_tile_during_frag t chunk sz = Some t' ∧
        frag_buf_sz t' = 0 ∧ staged t' = [] ∧
        tx_queue t' = tx_queue t ∧ tx_queue_cnt t' = tx_queue_cnt t ∧
        txn_count t' = txn_count t ∧
        fd_sequencer_tile_after_frag t' opt_sig ticks = Some t'.
Proof.
  intros Hbig. unfold fd_sequencer_tile_during_frag.
  rewrite decide_True by done.
  eexists. split; [reflexivity |]. by split_and!.
Qed.

Lemma oversized_fragment_dropped_witness :
  ∃ t', fd_sequencer_tile_during_frag full_tile (zeros 1233) 1233 = Some t' ∧
        frag_buf_sz t' = 0 ∧ staged t' = [] ∧
        tx_queue t' = tx_queue full_tile ∧
        tx_queue_cnt t' = tx_queue_cnt full_tile ∧
        txn_count t' = txn_count full_tile ∧
        fd_sequencer_tile_after_frag t' (Some 7000) 12 = Some t'.
Proof.
  apply (oversized_fragment_dropped full_tile (zeros 1233) 1233 (Some 7000) 12).
  reflexivity.
Defined.

Lemma during_frag_in_range t chunk sz :
  length (frag_buf t) = Z.to_nat FD_SEQUENCER_TXN_MTU →
  0 <= sz <= FD_SEQUENCER_TXN_MTU → sz <= Z.of_nat (length chunk) →
  ∃ buf, fd_sequencer_tile_during_frag t chunk sz = Some (set_frag t buf sz) ∧
         length buf = Z.to_nat FD_SEQUENCER_TXN_MTU ∧
         take (Z.to_nat sz) buf = take (Z.to_nat sz) chunk ∧
         drop (Z.to_nat sz) buf = drop (Z.to_nat sz) (frag_buf t).
Proof.
  intros Hbuf Hsz Hchunk. unfold fd_sequencer_tile_during_frag, fd_memcpy.
  rewrite decide_False by lia. rewrite decide_True by lia. simpl.
  eexists. split; [reflexivity |].
  assert (Hlen : length (take (Z.to_nat sz) chunk) = Z.to_nat sz)
    by (rewrite length_take; lia).
  split_and!.
  - rewrite length_app, length_drop, Hlen. lia.
  - rewrite take_app_length'; done.
  - rewrite drop_app_length'; done.
Qed.

(** Two chunks of one transaction, the bytes 1, 2 and the byte 3,
    delivered one after the other: only 3 is left staged, with size 1,
    not the three bytes with size 3; the buffer starts 3, 2, 0. *)
Lemma frag_append_counterexample :
  ∃ t', deliver_all (example_tile 2) [[1; 2]; [3]] = Some t' ∧
        staged t' = [3] ∧ staged t' ≠ [1; 2] ++ [3] ∧
        take 3 (frag_buf t') = [3; 2; 0] ∧
        frag_buf_sz t' = 1 ∧ frag_buf_sz t' ≠ 2 + 1.
Proof.
  eexists. split; [vm_compute; reflexivity |].
  split_and!;
    [reflexivity | discriminate | reflexivity | reflexivity | discriminate].
Qed.

(** C6, at the failing inputs.  The comments of the callbacks say that
    the data of a transaction may arrive in several chunks and that the
    completion callback runs once the full fragment has been received,
    but each in-range delivery copies to the start of the staging buffer
    and assigns the staged size: after several deliveries the staged
    bytes are those of the last chunk alone and the staged size is its
    size, so whenever an earlier chunk carried a byte the staged bytes
    are not the concatenation of the chunks.  The queue is not touched. *)
Theorem frag_delivery_overwrites frags : ∀ t f,
  length (frag_buf t) = Z.to_nat FD_SEQUENCER_TXN_MTU →
  Forall (λ g, Z.of_nat (length g) <= FD_SEQUENCER_TXN_MTU) (frags ++ [f]) →
  ∃ t', deliver_all t (frags ++ [f]) = Some t' ∧
        staged t' = f ∧ frag_buf_sz t' = Z.of_nat (length f) ∧
        (concat frags ≠ [] →
         staged t' ≠ concat (frags ++ [f]) ∧
         frag_buf_sz t' ≠ Z.of_nat (length (concat (frags ++ [f])))) ∧
        tx_queue t' = tx_queue t ∧ tx_queue_cnt t' = tx_queue_cnt t.
Proof.
  assert (Hlonger : ∀ (xs ys : list Z), xs ≠ [] →
            ys ≠ xs ++ ys ∧
            Z.of_nat (length ys) ≠ Z.of_nat (length (xs ++ ys))).
  { intros xs ys Hne.
    assert (length (xs ++ ys) ≠ length ys).
    { rewrite length_app. destruct xs; [done | simpl; lia]. }
    split; [congruence | lia]. }
  induction frags as [|g frags IH]; intros t f Hbuf Hall; simpl.
  - apply Forall_inv in Hall. simpl in Hall.
    destruct (during_frag_in_range t f (Z.of_nat (length f)))
      as (buf & Hd & Hlen & Htake & _); [done | lia | lia |].
    rewrite Hd. simpl. eexists. split; [reflexivity |].
    unfold staged. simpl. rewrite Htake, Nat2Z.id.
    split_and!; try done. by apply take_ge.
  - apply Forall_cons_1 in Hall as [Hg Hall]. simpl in Hg.
    destruct (during_frag_in_range t g (Z.of_nat (length g)))
      as (buf & Hd & Hlen & _); [done | lia | lia |].
    rewrite Hd. simpl.
    destruct (IH (set_frag t buf (Z.of_nat (length g))) f)
      as (t' & Hrun & Hst & Hsz & _ & Hq & Hcnt); [done | done |].
    exists t'. split; [done |]. split_and!; try done.
    intros Hne. rewrite Hst, Hsz.
    replace (g ++ concat (frags ++ [f])) with ((g ++ concat frags) ++ f)
      by (rewrite concat_app; simpl; by rewrite app_nil_r, app_assoc).
    by apply Hlonger.
Qed.

Lemma frag_delivery_overwrites_witness :
  ∃ t', deliver_all (example_tile 2) ([[1; 2]] ++ [[3]]) = Some t' ∧
        staged t' = [3] ∧ frag_buf_sz t' = Z.of_nat (length [3]) ∧
        (concat [[1; 2]] ≠ [] →
         staged t' ≠ concat ([[1; 2]] ++ [[3]]) ∧
         frag_buf_sz t' ≠ Z.of_nat (length (concat ([[1; 2]] ++ [[3]])))) ∧
        tx_queue t' = tx_queue (example_tile 2) ∧
        tx_queue_cnt t' = tx_queue_cnt (example_tile 2).
Proof.
  apply (frag_delivery_overwrites [[1; 2]] (example_tile 2) [3]).
  - reflexivity.
  - repeat constructor; vm_compute; discriminate.
Defined.

(** ** Scratch sizing *)

(** On a scratch region that is large enough, init returns a tile with an
    empty queue that satisfies the tile invariant. *)
Lemma init_establishes_invariant scratch_sz mem ticks :
  wrap64 (sizeof_tile + wrap64 (FD_SEQUENCER_QUEUE_MAX * sizeof_txn))
    <= scratch_sz →
  FD_SEQUENCER_QUEUE_MAX <= Z.of_nat (length mem) →
  ∃ t, fd_sequencer_tile_unprivileged_init scratch_sz mem ticks = Some t ∧
       tile_inv t ∧ tx_queue_cnt t = 0 ∧ parent_hash t = zeros 32 ∧
       current_slot t = 0 ∧ current_epoch t = 0.
Proof.
  intros Hsz Hmem. unfold fd_sequencer_tile_unprivileged_init.
  rewrite decide_False by lia.
  eexists. split; [reflexivity |]. split; [| done].
  split; [split |].
  - unfold queue_wf. simpl. unfold FD_SEQUENCER_QUEUE_MAX in *. lia.
  - intros i Hi. simpl in Hi. lia.
  - simpl. by split_and!.
Qed.


(** C10.  The advertised scratch footprint is 2^22 bytes, an entry takes
    1320 bytes (more than 1300), the queue alone takes more than 80 MiB,
    the size init requires exceeds 2^22, and init on a scratch region of
    the advertised footprint fails its size check and returns NULL. *)
Theorem init_rejects_advertised_footprint :
  fd_sequencer_tile_scratch_footprint = 2 ^ 22 ∧
  sizeof_txn = 1320 ∧ sizeof_txn > 1300 ∧
  FD_SEQUENCER_QUEUE_MAX * sizeof_txn > 80 * 2 ^ 20 ∧
  wrap64 (sizeof_tile + wrap64 (FD_SEQUENCER_QUEUE_MAX * sizeof_txn)) > 2 ^ 22 ∧
  ∀ mem ticks,
    fd_sequencer_tile_unprivileged_init
      fd_sequencer_tile_scratch_footprint mem ticks = None.
Proof.
  split_and!; reflexivity.
Qed.

(** ** Block assembly *)

Lemma drain_empty k t :
  tx_queue_cnt t = 0 → drain k t = Some (t, []).
Proof.
  intros Hz. destruct k as [|k]; [done |].
  simpl. by rewrite pop_empty.
Qed.

Section Assembly.

Variable sha256 : list Z → list Z.
Variable fd_ed25519_sign : list Z → list Z → list Z → list Z.

Local Abbreviation build_block := (fd_sequencer_build_block sha256 fd_ed25519_sign).
Local Abbreviation housekeeping :=
  (fd_sequencer_tile_during_housekeeping sha256 fd_ed25519_sign).

Lemma build_block_empty t hdr0 max_txns wallclock :
  tx_queue_cnt t = 0 →
  build_block t hdr0 max_txns wallclock
    = Some (t, mk_block
                 (mk_hdr (current_slot t) (parent_hash t) (zeros 32) 0
                    (sequencer_identity t) 0 (zeros 64) (zeros 4))
                 [] 0).
Proof.
  intros Hz. unfold fd_sequencer_build_block.
  by rewrite drain_empty.
Qed.

(** With fields of their declared sizes, the signed bytes are the six
    fields before the signature, whatever the signature field holds. *)
Lemma hdr_signed_bytes_fields h :
  length (hdr_parent_hash h) = 32%nat →
  length (hdr_merkle_root h) = 32%nat →
  length (hdr_sequencer_pubkey h) = 32%nat →
  hdr_signed_bytes h
    = le_bytes 8 (hdr_slot h) ++ hdr_parent_hash h ++ hdr_merkle_root h ++
      le_bytes 8 (hdr_timestamp h) ++ hdr_sequencer_pubkey h ++
      le_bytes 4 (hdr_txn_count h).
Proof.
  intros Hp Hm Hk. unfold hdr_signed_bytes, hdr_bytes.
  change (Z.to_nat offsetof_signature) with 116%nat.
  rewrite !(app_assoc _ _ (hdr_signature h ++ hdr_pad h)).
  apply take_app_length'.
  rewrite !length_app, Hp, Hm, Hk. reflexivity.
Qed.

(** The path that drains at least one entry does sign: the signature
    field holds the signature, under the tile's key pair, of the header
    bytes before it. *)
Lemma build_block_nonempty_signed t hdr0 max_txns wallclock :
  queue_inv t → tx_queue_cnt t > 0 → wrap32 max_txns > 0 →
  length (parent_hash t) = 32%nat →
  length (sequencer_identity t) = 32%nat →
  (∀ m, length (sha256 m) = 32%nat) →
  ∃ t' b, build_block t hdr0 max_txns wallclock = Some (t', b) ∧
          blk_cnt b > 0 ∧
          hdr_signature (blk_hdr b)
            = fd_ed25519_sign (hdr_signed_bytes (blk_hdr b))
                (sequencer_identity t) (sequencer_privkey t).
Proof.
  intros Hinv Hpos Hmax Hp Hk Hsha. unfold fd_sequencer_build_block.
  destruct (drain_correct (Z.to_nat (wrap32 max_txns)) t Hinv)
    as (t1 & ys & Hdr & _ & Heq & Hlen & _).
  rewrite Hdr. simpl. rewrite decide_False by lia.
  eexists _, _. split; [reflexivity |]. simpl. split; [lia |].
  rewrite Heq. simpl.
  rewrite !hdr_signed_bytes_fields by (simpl; auto). reflexivity.
Qed.

(** C2, at the failing input.  When the queue is empty, block assembly
    returns a header whose signature field is the 64 zero bytes of the
    [fd_memset]: this path returns before the signing call, whatever the
    key pair and the signing function are. *)
Theorem empty_block_unsigned t hdr0 max_txns wallclock :
  tx_queue_cnt t = 0 →
  ∃ b, build_block t hdr0 max_txns wallclock = Some (t, b) ∧
       blk_cnt b = 0 ∧ hdr_txn_count (blk_hdr b) = 0 ∧
       hdr_signature (blk_hdr b) = zeros 64.
Proof.
  intros Hz. rewrite build_block_empty by done.
  eexists. split; [reflexivity |]. by split_and!.
Qed.

(** What the block path computes on an empty queue once its automatic
    objects are in place (the slot counter below the largest [ulong], the
    epoch length not 0): a block with no entries whose header has
    transaction count 0 and the slot, parent hash and public key of the
    tile, and the tile's slot advanced by 1. *)
Lemma empty_block_still_produced t now wallclock hdr0 :
  tx_queue_cnt t = 0 →
  block_time_ns (cfg t) <= elapsed_ns t now →
  0 <= current_slot t < ULONG_MAX →
  epoch_length_slots (cfg t) ≠ 0 →
  ∃ t' b,
    housekeeping t now wallclock hdr0 = Some (t', Some b) ∧
    blk_cnt b = 0 ∧ blk_txns b = [] ∧
    hdr_txn_count (blk_hdr b) = 0 ∧
    hdr_slot (blk_hdr b) = current_slot t ∧
    hdr_parent_hash (blk_hdr b) = parent_hash t ∧
    hdr_sequencer_pubkey (blk_hdr b) = sequencer_identity t ∧
    current_slot t' = current_slot t + 1 ∧
    tx_queue_cnt t' = 0.
Proof.
  unfold ULONG_MAX. intros Hz Hdue Hslot Hlen.
  unfold fd_sequencer_tile_during_housekeeping.
  rewrite decide_False by lia.
  rewrite build_block_empty by done. simpl.
  unfold fd_sequencer_advance_slot. simpl.
  rewrite wrap64_small by lia.
  rewrite decide_True by lia. rewrite decide_False by done.
  case_decide; simpl; eexists _, _; (split; [reflexivity |]); simpl;
    by split_and!.
Qed.

(** C9, at the failing input.  The block path of housekeeping keeps
    10000 queue entries, the header and the hash context as automatic
    objects: 13200184 bytes and more, although the comment that clamps
    the entry count says it is there to keep the stack from blowing.  On
    every stack smaller than that, the 8 MiB default among them, a call
    that finds the block interval elapsed overflows the stack, whatever
    the queue holds: with an empty queue no header is produced and the
    slot does not advance. *)
Theorem empty_block_overflows_stack stack_sz sizeof_sha256 t now wallclock hdr0 :
  0 <= sizeof_sha256 →
  stack_sz < 13200184 →
  block_time_ns (cfg t) <= elapsed_ns t now →
  13200184 <= housekeeping_autos_sz sizeof_sha256 ∧
  fd_sequencer_tile_during_housekeeping_on_stack sha256 fd_ed25519_sign
    stack_sz sizeof_sha256 t now wallclock hdr0 = Stack_overflow.
Proof.
  intros Hsha Hstack Hdue.
  assert (Hautos : 13200184 <= housekeeping_autos_sz sizeof_sha256).
  { unfold housekeeping_autos_sz.
    change sizeof_txn with 1320. change sizeof_hdr with 184. lia. }
  split; [done |].
  unfold fd_sequencer_tile_during_housekeeping_on_stack.
  rewrite decide_False by lia. rewrite decide_True by lia. reflexivity.
Qed.

(** ** The callbacks keep the tile invariant *)

Lemma push_total t x :
  queue_inv t →
  ∃ t1 r, fd_sequencer_txn_queue_push t x = Some (t1, r) ∧ queue_inv t1 ∧
          t1 = set_queue t (tx_queue t1) (tx_queue_cnt t1).
Proof.
  intros Hinv.
  destruct (decide (tx_queue_cnt t >= tx_queue_cap t)) as [Hfull | Hroom].
  - rewrite push_full by done. exists t, 0.
    split_and!; [done | done | by rewrite set_queue_id].
  - destruct (push_correct t x Hinv) as (q' & Hpush & Hinv' & _); [lia |].
    rewrite Hpush. eexists _, _. split_and!; [reflexivity | done | done].
Qed.

Lemma during_frag_total t chunk sz :
  tile_inv t → event_ok (During_frag chunk sz) →
  ∃ t', fd_sequencer_tile_during_frag t chunk sz = Some t' ∧
        tile_inv t' ∧ parent_hash t' = parent_hash t.
Proof.
  intros (Hq & Hbuf & Hsz & Hlen) [Hpos Hchunk].
  destruct (decide (sz > FD_SEQUENCER_TXN_MTU)) as [Hbig | Hfit].
  - unfold fd_sequencer_tile_during_frag. rewrite decide_True by done.
    eexists. split; [reflexivity |]. split; [| done].
    unfold tile_inv. simpl. by split_and!.
  - destruct (during_frag_in_range t chunk sz) as (buf & Hd & Hlenb & _);
      [done | lia | lia |].
    rewrite Hd. eexists. split; [reflexivity |]. split; [| done].
    unfold tile_inv. simpl. split_and!; try done; lia.
Qed.

Lemma set_queue_frame t t1 q c :
  t1 = set_queue t q c →
  parent_hash t1 = parent_hash t ∧ cfg t1 = cfg t ∧
  frag_buf t1 = frag_buf t ∧ frag_buf_sz t1 = frag_buf_sz t.
Proof. by intros ->. Qed.

Lemma fd_memcpy_in_range dst src n :
  (Z.to_nat n <= length dst)%nat → (Z.to_nat n <= length src)%nat →
  fd_memcpy dst src n = Some (take (Z.to_nat n) src ++ drop (Z.to_nat n) dst).
Proof. intros. unfold fd_memcpy. by rewrite decide_True. Qed.

Lemma after_frag_total t opt_sig ticks :
  tile_inv t →
  ∃ t', fd_sequencer_tile_after_frag t opt_sig ticks = Some t' ∧
        tile_inv t' ∧ parent_hash t' = parent_hash t.
Proof.
  intros (Hq & Hbuf & Hsz & Hlen). unfold fd_sequencer_tile_after_frag.
  case_decide as Hz.
  { exists t. by split_and!. }
  assert (Hzeros : length (payload txn_zero) = Z.to_nat FD_SEQUENCER_TXN_MTU)
    by apply length_replicate.
  rewrite (fd_memcpy_in_range (payload txn_zero)) by lia.
  set (p := take _ (frag_buf t) ++ drop _ _). simpl.
  assert (Hp : length p = Z.to_nat FD_SEQUENCER_TXN_MTU).
  { unfold p. rewrite length_app, length_take, length_drop, Hzeros. lia. }
  set (s := if decide (frag_buf_sz t >= 65) then _ else _).
  assert (Hs : ∃ sg, s = Some sg).
  { unfold s. case_decide; [| eauto].
    rewrite fd_memcpy_in_range; [eauto | vm_compute; lia |].
    rewrite length_drop, Hp. vm_compute. lia. }
  destruct Hs as [sg ->]. simpl.
  match goal with
  | |- context [fd_sequencer_txn_queue_push t ?x] =>
      destruct (push_total t x Hq) as (t1 & r & Hpush & Hq1 & Heq)
  end.
  rewrite Hpush. simpl.
  destruct (set_queue_frame _ _ _ _ Heq) as (Hph & Hcfg & Hfb & Hfs).
  assert (Hinv1 : ∀ n, tile_inv (set_frag (set_txn_count t1 n) (frag_buf t1) 0)).
  { intros n. split; [exact Hq1 |]. simpl. rewrite Hfb, Hcfg. by split_and!. }
  case_decide; eexists; (split; [reflexivity |]); (split; [| done]).
  - pose proof (Hinv1 (txn_count t1)) as H1. by destruct t1.
  - apply Hinv1.
Qed.

Lemma build_block_total t hdr0 max_txns wallclock :
  queue_inv t →
  ∃ t' b, build_block t hdr0 max_txns wallclock = Some (t', b) ∧
          queue_inv t' ∧
          hdr_parent_hash (blk_hdr b) = parent_hash t ∧
          parent_hash t' = parent_hash t ∧ cfg t' = cfg t ∧
          frag_buf t' = frag_buf t ∧ frag_buf_sz t' = frag_buf_sz t.
Proof.
  intros Hinv. unfold fd_sequencer_build_block.
  destruct (drain_correct (Z.to_nat (wrap32 max_txns)) t Hinv)
    as (t1 & ys & Hdr & Hinv1 & Heq & _).
  rewrite Hdr. simpl.
  destruct (set_queue_frame _ _ _ _ Heq) as (Hph & Hcfg & Hfb & Hfs).
  case_decide; eexists _, _; (split; [reflexivity |]); simpl;
    by split_and!.
Qed.

Lemma housekeeping_total t now wallclock hdr0 :
  tile_inv t →
  ∃ t' ob, housekeeping t now wallclock hdr0 = Some (t', ob) ∧ tile_inv t' ∧
           match ob with
           | None => parent_hash t' = parent_hash t
           | Some b => hdr_parent_hash (blk_hdr b) = parent_hash t ∧
                       parent_hash t' = block_hash sha256 b
           end.
Proof.
  intros (Hq & Hbuf & Hsz & Hlen).
  unfold fd_sequencer_tile_during_housekeeping.
  case_decide as Hdue.
  { exists t, None. by split_and!. }
  match goal with
  | |- context [build_block t hdr0 ?m wallclock] =>
      destruct (build_block_total t hdr0 m wallclock Hq)
        as (t1 & b & Hb & Hq1 & Hpar & Hph & Hcfg & Hfb & Hfs)
  end.
  rewrite Hb. simpl.
  unfold fd_sequencer_advance_slot. simpl. rewrite Hcfg.
  assert (Hinv1 : ∀ h s e k n,
            tile_inv (set_block_start_ticks
                        (set_position (set_parent_hash t1 h) s e k) n)).
  { intros. split; [exact Hq1 |]. simpl. by rewrite Hcfg, Hfb, Hfs. }
  repeat case_decide; try done; simpl;
    eexists _, (Some b); (split; [reflexivity |]); (split; [apply Hinv1 |]);
    by split.
Qed.

Lemma step_total t ev :
  tile_inv t → event_ok ev →
  ∃ t' ob, step sha256 fd_ed25519_sign t ev = Some (t', ob) ∧ tile_inv t' ∧
           match ob with
           | None => parent_hash t' = parent_hash t
           | Some b => hdr_parent_hash (blk_hdr b) = parent_hash t ∧
                       parent_hash t' = block_hash sha256 b
           end.
Proof.
  intros Hinv Hok. destruct ev as [chunk sz | opt_sig ticks | now wc hdr0]; simpl.
  - destruct (during_frag_total t chunk sz Hinv Hok) as (t' & -> & Hinv' & Hp).
    simpl. by exists t', None.
  - destruct (after_frag_total t opt_sig ticks Hinv) as (t' & -> & Hinv' & Hp).
    simpl. by exists t', None.
  - by apply housekeeping_total.
Qed.

Lemma chained_consecutive h bs :
  chained sha256 h bs →
  ∀ (i : nat) b b', bs !! i = Some b → bs !! S i = Some b' →
    hdr_parent_hash (blk_hdr b') = block_hash sha256 b.
Proof.
  revert h. induction bs as [|b0 bs IH]; intros h Hch i b b' Hb Hb';
    [done |].
  destruct Hch as [_ Hch]. destruct i as [|i]; simpl in *.
  - simplify_eq. destruct bs as [|b1 bs]; [done |]. simpl in *.
    simplify_eq. apply Hch.
  - by apply (IH _ Hch i).
Qed.

(** C3.  From a tile that satisfies the invariant, any sequence of
    callbacks on readable fragments runs to the end, and for the blocks
    it produces, in order: the tile's rolling parent hash is then the
    sha256 hash of the whole header of the last block produced (so it is
    right after each producing housekeeping call); the first block names
    the parent hash the tile started with; and each later block names, as
    its parent, the hash of the whole header of the block before it. *)
Theorem parent_hash_chain t evs :
  tile_inv t → Forall event_ok evs →
  ∃ t' bs,
    run_events sha256 fd_ed25519_sign t evs = Some (t', bs) ∧
    parent_hash t' = chain_end sha256 (parent_hash t) bs ∧
    chained sha256 (parent_hash t) bs ∧
    ∀ (i : nat) b b', bs !! i = Some b → bs !! S i = Some b' →
      hdr_parent_hash (blk_hdr b') = sha256 (hdr_full_bytes (blk_hdr b)).
Proof.
  intros Hinv Hok.
  cut (∃ t' bs,
         run_events sha256 fd_ed25519_sign t evs = Some (t', bs) ∧
         parent_hash t' = chain_end sha256 (parent_hash t) bs ∧
         chained sha256 (parent_hash t) bs).
  { intros (t' & bs & Hrun & Hend & Hch). exists t', bs.
    split_and!; try done. by apply (chained_consecutive (parent_hash t)). }
  revert t Hinv. induction Hok as [|ev evs Hev Hevs IH]; intros t Hinv; simpl.
  - by exists t, [].
  - destruct (step_total t ev Hinv Hev) as (t1 & ob & Hstep & Hinv1 & Hob).
    rewrite Hstep. simpl.
    destruct (IH t1 Hinv1) as (t' & bs & Hrun & Hend & Hch).
    rewrite Hrun. simpl. eexists _, _. split; [reflexivity |].
    destruct ob as [b |]; simpl.
    + destruct Hob as [Hpar Hnew]. rewrite Hnew in *. by split_and!.
    + rewrite Hob in *. by split.
Qed.

End Assembly.

(** ** The block theorems on an example *)

Lemma empty_block_unsigned_witness :
  ∃ b, fd_sequencer_build_block example_sha256 example_sign
         (example_tile 2) hdr_zero 10000 1700000000000000000
         = Some (example_tile 2, b) ∧
       blk_cnt b = 0 ∧ hdr_txn_count (blk_hdr b) = 0 ∧
       hdr_signature (blk_hdr b) = zeros 64.
Proof.
  apply (empty_block_unsigned example_sha256 example_sign (example_tile 2)).
  reflexivity.
Defined.

Lemma empty_block_still_produced_witness :
  ∃ t' b,
    fd_sequencer_tile_during_housekeeping example_sha256 example_sign
      (example_tile 2) 400000000 1700000000000000000 hdr_zero
      = Some (t', Some b) ∧
    blk_cnt b = 0 ∧ blk_txns b = [] ∧
    hdr_txn_count (blk_hdr b) = 0 ∧
    hdr_slot (blk_hdr b) = current_slot (example_tile 2) ∧
    hdr_parent_hash (blk_hdr b) = parent_hash (example_tile 2) ∧
    hdr_sequencer_pubkey (blk_hdr b) = sequencer_identity (example_tile 2) ∧
    current_slot t' = current_slot (example_tile 2) + 1 ∧
    tx_queue_cnt t' = 0.
Proof.
  apply (empty_block_still_produced example_sha256 example_sign
           (example_tile 2) 400000000).
  - reflexivity.
  - vm_compute. discriminate.
  - unfold ULONG_MAX. simpl. lia.
  - simpl. lia.
Defined.

(** The tile as init leaves it, one block interval later, on a stack of
    8 MiB; 128 stands for the size of the hash context. *)
Lemma empty_block_overflows_stack_witness :
  13200184 <= housekeeping_autos_sz 128 ∧
  fd_sequencer_tile_during_housekeeping_on_stack example_sha256 example_sign
    (8 * 2 ^ 20) 128 (example_tile 2) 400000000 1700000000000000000 hdr_zero
    = Stack_overflow.
Proof.
  apply (empty_block_overflows_stack example_sha256 example_sign
           (8 * 2 ^ 20) 128 (example_tile 2) 400000000).
  - lia.
  - lia.
  - vm_compute. discriminate.
Defined.

Lemma parent_hash_chain_witness :
  ∃ t' bs,
    run_events example_sha256 example_sign (example_tile 2)
      [During_frag [1; 2; 3] 3; After_frag (Some 7000) 5;
       Housekeeping 400000000 1700000000000000000 hdr_zero;
       Housekeeping 800000000 1700000000400000000 hdr_zero]
      = Some (t', bs) ∧
    parent_hash t'
      = chain_end example_sha256 (parent_hash (example_tile 2)) bs ∧
    chained example_sha256 (parent_hash (example_tile 2)) bs ∧
    ∀ (i : nat) b b', bs !! i = Some b → bs !! S i = Some b' →
      hdr_parent_hash (blk_hdr b')
        = example_sha256 (hdr_full_bytes (blk_hdr b)).
Proof.
  apply (parent_hash_chain example_sha256 example_sign (example_tile 2)).
  - split.
    + split.
      * unfold queue_wf. simpl. lia.
      * intros i Hi. simpl in Hi. lia.
    + unfold FD_SEQUENCER_TXN_MTU. simpl. lia.
  - repeat constructor; unfold FD_SEQUENCER_TXN_MTU; simpl; lia.
Defined.

(** * Further properties of the code *)

(** ** Queue: what push and pop do to the stored entries *)

(** X1.  A push into a queue with room returns 1, raises the count by 1
    and adds exactly the pushed entry to the stored ones (as a multiset);
    no field of the tile but the queue cells and the count changes. *)
Theorem push_adds_entry t x :
  queue_inv t → tx_queue_cnt t < tx_queue_cap t →
  ∃ t', fd_sequencer_txn_queue_push t x = Some (t', 1) ∧
        tx_queue_cnt t' = tx_queue_cnt t + 1 ∧
        stored t' ≡ₚ x :: stored t ∧
        t' = set_queue t (tx_queue t') (tx_queue_cnt t').
Proof.
  intros Hinv Hroom.
  destruct (push_correct t x Hinv Hroom) as (q' & Hpush & _ & Hperm).
  eexists. split; [exact Hpush |]. by split_and!.
Qed.

Lemma push_adds_entry_witness :
  ∃ t', fd_sequencer_txn_queue_push (example_tile 4) (example_txn 700)
          = Some (t', 1) ∧
        tx_queue_cnt t' = tx_queue_cnt (example_tile 4) + 1 ∧
        stored t' ≡ₚ example_txn 700 :: stored (example_tile 4) ∧
        t' = set_queue (example_tile 4) (tx_queue t') (tx_queue_cnt t').
Proof.
  apply (push_adds_entry (example_tile 4) (example_txn 700)).
  - split.
    + unfold queue_wf. simpl. lia.
    + intros i Hi. simpl in Hi. lia.
  - simpl. lia.
Defined.

(** X2.  A pop from a non-empty queue returns 1 with the entry peek
    shows, whose fee is the largest stored; the count drops by 1 and the
    entries left are the stored ones without the popped one (as a
    multiset); no other field of the tile changes. *)
Theorem pop_removes_max t :
  queue_inv t → tx_queue_cnt t > 0 →
  ∃ t' out, fd_sequencer_txn_queue_pop t = Some (t', Some out) ∧
            fd_sequencer_txn_queue_peek t = Some out ∧
            (∀ y, y ∈ stored t → fee y <= fee out) ∧
            tx_queue_cnt t' = tx_queue_cnt t - 1 ∧
            out :: stored t' ≡ₚ stored t ∧
            t' = set_queue t (tx_queue t') (tx_queue_cnt t').
Proof.
  intros Hinv Hpos.
  destruct (pop_correct t Hinv Hpos) as (q' & out & Hpop & Hout & _ & Hperm).
  eexists _, out. split; [exact Hpop |]. split_and!; try done.
  - unfold fd_sequencer_txn_queue_peek. by rewrite decide_False by lia.
  - by apply pop_max.
Qed.

Lemma pop_removes_max_witness :
  ∃ t' out, fd_sequencer_txn_queue_pop full_tile = Some (t', Some out) ∧
            fd_sequencer_txn_queue_peek full_tile = Some out ∧
            (∀ y, y ∈ stored full_tile → fee y <= fee out) ∧
            tx_queue_cnt t' = tx_queue_cnt full_tile - 1 ∧
            out :: stored t' ≡ₚ stored full_tile ∧
            t' = set_queue full_tile (tx_queue t') (tx_queue_cnt t').
Proof.
  apply (pop_removes_max full_tile).
  - split.
    + unfold queue_wf. simpl. lia.
    + apply heap_orderedb_correct. reflexivity.
  - simpl. lia.
Defined.

(** X3.  Pushing an entry whose fee exceeds every stored fee and popping
    right after returns that very entry and leaves the stored entries
    and the count as they were before the push. *)
Theorem push_then_pop_highest t x :
  queue_inv t → tx_queue_cnt t < tx_queue_cap t →
  (∀ y, y ∈ stored t → fee y < fee x) →
  ∃ t1 t2, fd_sequencer_txn_queue_push t x = Some (t1, 1) ∧
           fd_sequencer_txn_queue_peek t1 = Some x ∧
           fd_sequencer_txn_queue_pop t1 = Some (t2, Some x) ∧
           stored t2 ≡ₚ stored t ∧
           tx_queue_cnt t2 = tx_queue_cnt t.
Proof.
  intros Hinv Hroom Hhigh.
  destruct (push_correct t x Hinv Hroom) as (q1 & Hpush & Hinv1 & Hperm1).
  set (t1 := set_queue t q1 (tx_queue_cnt t + 1)) in *.
  assert (Hpos : tx_queue_cnt t1 > 0)
    by (destruct Hinv as [(? & _) _]; simpl; lia).
  destruct (pop_correct t1 Hinv1 Hpos) as (q2 & out & Hpop & Hout & _ & Hperm2).
  pose proof (pop_max t1 out Hinv1 Hpos Hout) as Hmax.
  assert (Hx : out = x).
  { assert (Hin : out ∈ x :: stored t).
    { rewrite <- Hperm1, <- Hperm2. apply elem_of_cons. by left. }
    apply elem_of_cons in Hin as [-> | Hin]; [done |].
    assert (fee x <= fee out).
    { apply Hmax. rewrite Hperm1. apply elem_of_cons. by left. }
    specialize (Hhigh out Hin). lia. }
  subst out. exists t1, (set_queue t1 q2 (tx_queue_cnt t1 - 1)).
  split_and!; [done | | exact Hpop | | simpl; lia].
  - unfold fd_sequencer_txn_queue_peek. by rewrite decide_False by lia.
  - apply (Permutation_cons_inv (a := x)). by rewrite Hperm2, Hperm1.
Qed.

Lemma push_then_pop_highest_witness :
  ∃ t1 t2,
    fd_sequencer_txn_queue_push
      (set_queue (example_tile 4) [example_txn 500; example_txn 100;
                                   txn_zero; txn_zero] 2)
      (example_txn 900) = Some (t1, 1) ∧
    fd_sequencer_txn_queue_peek t1 = Some (example_txn 900) ∧
    fd_sequencer_txn_queue_pop t1 = Some (t2, Some (example_txn 900)) ∧
    stored t2 ≡ₚ [example_txn 500; example_txn 100] ∧
    tx_queue_cnt t2 = 2.
Proof.
  apply (push_then_pop_highest
           (set_queue (example_tile 4) [example_txn 500; example_txn 100;
                                        txn_zero; txn_zero] 2)
           (example_txn 900)).
  - split.
    + unfold queue_wf. simpl. lia.
    + apply heap_orderedb_correct. reflexivity.
  - simpl. lia.
  - intros y Hy. vm_compute in Hy.
    apply elem_of_cons in Hy as [-> | Hy]; [simpl; lia |].
    apply elem_of_cons in Hy as [-> | Hy]; [simpl; lia |].
    by apply elem_of_nil in Hy.
Defined.

(** ** Block assembly: selection, header and fees *)

Lemma drain_above_rest k : ∀ t t' ys,
  queue_inv t → drain k t = Some (t', ys) →
  ∀ y z, y ∈ ys → z ∈ stored t' → fee z <= fee y.
Proof.
  induction k as [|k IH]; intros t t' ys Hinv Hdr y z Hy Hz.
  - simpl in Hdr. simplify_eq. by apply elem_of_nil in Hy.
  - simpl in Hdr. destruct (decide (tx_queue_cnt t = 0)) as [Hz0 | Hnz].
    + rewrite pop_empty in Hdr by done. simpl in Hdr. simplify_eq.
      by apply elem_of_nil in Hy.
    + assert (Hpos : tx_queue_cnt t > 0) by (destruct Hinv as [(? & _) _]; lia).
      destruct (pop_correct t Hinv Hpos) as (q1 & out & Hpop & Hout & Hinv1 & Hperm1).
      rewrite Hpop in Hdr. simpl in Hdr.
      destruct (drain_correct k _ Hinv1) as (t2 & ys2 & Hdr2 & _ & _ & _ & _ & Hperm2 & _).
      rewrite Hdr2 in Hdr. simpl in Hdr. simplify_eq.
      apply elem_of_cons in Hy as [-> | Hy].
      * apply (pop_max t out Hinv Hpos Hout).
        rewrite <- Hperm1, <- Hperm2.
        rewrite elem_of_cons, elem_of_app. tauto.
      * by apply (IH _ _ _ Hinv1 Hdr2).
Qed.

Lemma fold_fees_wrap xs : ∀ f0,
  wrap64 (fold_left (λ acc x, wrap64 (acc + fee x)) xs f0)
    = wrap64 (f0 + sum_fees xs).
Proof.
  unfold wrap64. induction xs as [|x xs IH]; intros f0; simpl.
  - f_equal. lia.
  - rewrite IH. rewrite Zplus_mod_idemp_l. f_equal. lia.
Qed.

Lemma fold_fees_range xs : ∀ f0,
  0 <= f0 < 2 ^ 64 →
  0 <= fold_left (λ acc x, wrap64 (acc + fee x)) xs f0 < 2 ^ 64.
Proof.
  induction xs as [|x xs IH]; intros f0 Hf; simpl; [done |].
  apply IH. unfold wrap64. lia.
Qed.

Lemma le_bytes_length n : ∀ x, length (le_bytes n x) = n.
Proof. induction n as [|n IH]; intros x; simpl; [done | by rewrite IH]. Qed.

Local Arguments le_bytes : simpl never.

Lemma set_queue_fields t t1 q c :
  t1 = set_queue t q c →
  sequencer_identity t1 = sequencer_identity t ∧
  sequencer_privkey t1 = sequencer_privkey t ∧
  current_slot t1 = current_slot t ∧ current_epoch t1 = current_epoch t ∧
  block_count t1 = block_count t ∧ txn_count t1 = txn_count t ∧
  block_start_ticks t1 = block_start_ticks t ∧
  fee_total t1 = fee_total t ∧ tx_queue_cap t1 = tx_queue_cap t.
Proof. by intros ->. Qed.

Lemma hdr_bytes_split h :
  hdr_bytes h = hdr_fields_bytes h ++ hdr_signature h ++ hdr_pad h.
Proof.
  unfold hdr_bytes, hdr_fields_bytes. by rewrite <- !app_assoc.
Qed.

Lemma hdr_full_bytes_split h :
  length (hdr_parent_hash h) = 32%nat →
  length (hdr_merkle_root h) = 32%nat →
  length (hdr_sequencer_pubkey h) = 32%nat →
  length (hdr_signature h) = 64%nat →
  length (hdr_pad h) = 4%nat →
  hdr_full_bytes h = hdr_fields_bytes h ++ hdr_signature h ++ hdr_pad h.
Proof.
  intros Hp Hm Hk Hs Hpad. unfold hdr_full_bytes.
  rewrite hdr_bytes_split. apply take_ge.
  unfold hdr_fields_bytes.
  rewrite !length_app, !le_bytes_length, Hp, Hm, Hk, Hs, Hpad.
  vm_compute. lia.
Qed.

Lemma hdr_fields_bytes_length h :
  length (hdr_parent_hash h) = 32%nat →
  length (hdr_merkle_root h) = 32%nat →
  length (hdr_sequencer_pubkey h) = 32%nat →
  length (hdr_fields_bytes h) = 116%nat.
Proof.
  intros Hp Hm Hk. unfold hdr_fields_bytes.
  rewrite !length_app, !le_bytes_length, Hp, Hm, Hk. reflexivity.
Qed.

Section BlockProperties.

Variable sha256 : list Z → list Z.
Variable fd_ed25519_sign : list Z → list Z → list Z → list Z.

Local Abbreviation build_block := (fd_sequencer_build_block sha256 fd_ed25519_sign).
Local Abbreviation housekeeping :=
  (fd_sequencer_tile_during_housekeeping sha256 fd_ed25519_sign).

(** What block assembly returns, read off its two paths. *)
Lemma build_block_fields t hdr0 max_txns wallclock :
  queue_inv t →
  ∃ t1 ys t' b,
    drain (Z.to_nat (wrap32 max_txns)) t = Some (t1, ys) ∧
    build_block t hdr0 max_txns wallclock = Some (t', b) ∧
    tx_queue t' = tx_queue t1 ∧ tx_queue_cnt t' = tx_queue_cnt t1 ∧
    cfg t' = cfg t ∧
    blk_txns b = ys ∧ blk_cnt b = Z.of_nat (length ys) ∧
    hdr_txn_count (blk_hdr b) = Z.of_nat (length ys) ∧
    hdr_slot (blk_hdr b) = current_slot t ∧
    hdr_parent_hash (blk_hdr b) = parent_hash t ∧
    hdr_sequencer_pubkey (blk_hdr b) = sequencer_identity t ∧
    (ys ≠ [] →
     hdr_merkle_root (blk_hdr b) = sha256 (concat (map sig ys)) ∧
     hdr_timestamp (blk_hdr b) = wallclock ∧
     hdr_pad (blk_hdr b) = hdr_pad hdr0 ∧
     hdr_signature (blk_hdr b)
       = fd_ed25519_sign
           (hdr_signed_bytes
              (mk_hdr (current_slot t) (parent_hash t)
                 (sha256 (concat (map sig ys))) wallclock
                 (sequencer_identity t) (Z.of_nat (length ys))
                 (hdr_signature hdr0) (hdr_pad hdr0)))
           (sequencer_identity t) (sequencer_privkey t)).
Proof.
  intros Hinv. unfold fd_sequencer_build_block.
  destruct (drain_correct (Z.to_nat (wrap32 max_txns)) t Hinv)
    as (t1 & ys & Hdr & _ & Heq & _).
  destruct (set_queue_fields _ _ _ _ Heq) as (Hid & Hpk & Hsl & _).
  destruct (set_queue_frame _ _ _ _ Heq) as (Hph & Hcfg & _).
  rewrite Hdr. cbn [mbind option_bind fst snd].
  exists t1, ys.
  case_decide as Hn; eexists _, _; (split; [reflexivity |]);
    (split; [reflexivity |]);
    cbn [blk_hdr blk_txns blk_cnt hdr_slot hdr_parent_hash hdr_merkle_root
         hdr_timestamp hdr_sequencer_pubkey hdr_txn_count hdr_signature
         hdr_pad set_fee_total tx_queue tx_queue_cnt cfg];
    rewrite ?Hid, ?Hpk, ?Hsl, ?Hph; split_and!; try done.
  intros Hne. destruct ys; [done | simpl in Hn; lia].
Qed.

(** X4.  Block assembly drains as many entries as the queue holds, up to
    [max_txns] cut to 32 bits; the header's count is that number; the
    drained entries and the ones left make up the queue as it was; and no
    entry left in the queue has a higher fee than a drained one. *)
Theorem build_block_takes_highest t hdr0 max_txns wallclock :
  queue_inv t →
  ∃ t' b, build_block t hdr0 max_txns wallclock = Some (t', b) ∧
          blk_cnt b = Z.min (wrap32 max_txns) (tx_queue_cnt t) ∧
          blk_cnt b = Z.of_nat (length (blk_txns b)) ∧
          hdr_txn_count (blk_hdr b) = blk_cnt b ∧
          tx_queue_cnt t' = tx_queue_cnt t - blk_cnt b ∧
          blk_txns b ++ stored t' ≡ₚ stored t ∧
          ∀ y z, y ∈ blk_txns b → z ∈ stored t' → fee z <= fee y.
Proof.
  intros Hinv.
  destruct (build_block_fields t hdr0 max_txns wallclock Hinv)
    as (t1 & ys & t' & b & Hdr & Hb & Hq & Hc & _ & Htx & Hcnt & Hhc & _).
  destruct (drain_correct (Z.to_nat (wrap32 max_txns)) t Hinv)
    as (t1' & ys' & Hdr' & _ & _ & Hlen & Hleft & Hperm & _).
  assert (t1' = t1 ∧ ys' = ys) as [-> ->]
    by (rewrite Hdr in Hdr'; by simplify_eq).
  pose proof (drain_above_rest _ _ _ _ Hinv Hdr) as Htop.
  assert (Hw : 0 <= wrap32 max_txns) by (unfold wrap32; lia).
  assert (Hst : stored t' = stored t1) by (unfold stored; by rewrite Hq, Hc).
  exists t', b. rewrite Hst, Hc, Hcnt, Hhc, Htx.
  split_and!; try done; lia.
Qed.

(** X5.  Block assembly adds the fees of the drained entries to the
    tile's fee total, modulo 2^64; with nothing drained the total stays. *)
Theorem build_block_fee_total t hdr0 max_txns wallclock :
  queue_inv t → 0 <= fee_total t < 2 ^ 64 →
  ∃ t' b, build_block t hdr0 max_txns wallclock = Some (t', b) ∧
          fee_total t' = wrap64 (fee_total t + sum_fees (blk_txns b)) ∧
          (blk_txns b = [] → fee_total t' = fee_total t).
Proof.
  intros Hinv Hfee. unfold fd_sequencer_build_block.
  destruct (drain_correct (Z.to_nat (wrap32 max_txns)) t Hinv)
    as (t1 & ys & Hdr & _ & Heq & _).
  assert (Hft : fee_total t1 = fee_total t) by (by rewrite Heq).
  rewrite Hdr. simpl.
  case_decide as Hn; eexists _, _; (split; [reflexivity |]); simpl.
  - destruct ys; [| simpl in Hn; lia]. simpl.
    rewrite Hft, Z.add_0_r, wrap64_small by done. done.
  - rewrite Hft. split.
    + rewrite <- fold_fees_wrap. symmetry. apply wrap64_small.
      by apply fold_fees_range.
    + intros ->. simpl in Hn. lia.
Qed.

(** X6.  When at least one entry is drained, the header carries the
    tile's slot, parent hash and public key, the wall-clock time, the
    sha256 hash of the drained entries' signatures concatenated in drain
    order, and a signature, under the tile's key pair, of the 116 bytes
    of the six fields before the signature field. *)
Theorem build_block_header t hdr0 max_txns wallclock :
  queue_inv t → tx_queue_cnt t > 0 → wrap32 max_txns > 0 →
  length (parent_hash t) = 32%nat →
  length (sequencer_identity t) = 32%nat →
  (∀ m, length (sha256 m) = 32%nat) →
  ∃ t' b, build_block t hdr0 max_txns wallclock = Some (t', b) ∧
          blk_cnt b > 0 ∧
          hdr_slot (blk_hdr b) = current_slot t ∧
          hdr_parent_hash (blk_hdr b) = parent_hash t ∧
          hdr_merkle_root (blk_hdr b)
            = sha256 (concat (map sig (blk_txns b))) ∧
          hdr_timestamp (blk_hdr b) = wallclock ∧
          hdr_sequencer_pubkey (blk_hdr b) = sequencer_identity t ∧
          hdr_signature (blk_hdr b)
            = fd_ed25519_sign (hdr_fields_bytes (blk_hdr b))
                (sequencer_identity t) (sequencer_privkey t) ∧
          length (hdr_fields_bytes (blk_hdr b)) = 116%nat.
Proof.
  intros Hinv Hpos Hmax Hp Hk Hsha.
  destruct (build_block_fields t hdr0 max_txns wallclock Hinv)
    as (t1 & ys & t' & b & Hdr & Hb & _ & _ & _ & Htx & Hcnt & Hhc & Hsl
        & Hpar & Hpub & Hne).
  destruct (drain_correct (Z.to_nat (wrap32 max_txns)) t Hinv)
    as (t1' & ys' & Hdr' & _ & _ & Hlen & _).
  assert (t1' = t1 ∧ ys' = ys) as [-> ->]
    by (rewrite Hdr in Hdr'; by simplify_eq).
  destruct Hne as (Hmerk & Hts & Hpad & Hsig).
  { intros ->. simpl in Hlen. lia. }
  exists t', b. rewrite Htx.
  split_and!; try done.
  - lia.
  - rewrite Hsig. f_equal.
    rewrite hdr_signed_bytes_fields by (cbn; auto).
    unfold hdr_fields_bytes. cbn [hdr_slot hdr_parent_hash hdr_merkle_root
      hdr_timestamp hdr_sequencer_pubkey hdr_txn_count].
    by rewrite Hsl, Hpar, Hmerk, Hts, Hpub, Hhc.
  - apply hdr_fields_bytes_length; rewrite ?Hpar, ?Hmerk, ?Hpub; auto.
Qed.

(** X7.  The hash chained into the next block covers the whole 184-byte
    header struct.  For a block with entries the last 4 of these bytes
    are tail padding that no statement writes: the new parent hash is the
    hash of 180 bytes fixed by the tile, followed by whatever the stack
    slot of the header held there. *)
Theorem parent_hash_covers_padding t now wallclock :
  tile_inv t → block_time_ns (cfg t) <= elapsed_ns t now →
  tx_queue_cnt t > 0 → 0 < max_txns_per_block (cfg t) →
  length (parent_hash t) = 32%nat →
  length (sequencer_identity t) = 32%nat →
  (∀ m, length (sha256 m) = 32%nat) →
  (∀ m pk sk, length (fd_ed25519_sign m pk sk) = 64%nat) →
  ∃ pre, length pre = 180%nat ∧
    ∀ hdr0, length (hdr_pad hdr0) = 4%nat →
      ∃ t' b, housekeeping t now wallclock hdr0 = Some (t', Some b) ∧
              hdr_full_bytes (blk_hdr b) = pre ++ hdr_pad hdr0 ∧
              parent_hash t' = sha256 (pre ++ hdr_pad hdr0).
Proof.
  intros (Hinv & Hbuf & Hsz & Hlen) Hdue Hpos Hmax Hp Hk Hsha Hsign.
  set (m := if decide (max_txns_per_block (cfg t) > 10000) then 10000
            else max_txns_per_block (cfg t)).
  assert (Hm : wrap32 m > 0).
  { unfold m, wrap32. case_decide; lia. }
  destruct (drain_correct (Z.to_nat (wrap32 m)) t Hinv)
    as (t1 & ys & Hdr & _ & _ & Hlenys & _).
  assert (Hys : ys ≠ []) by (intros ->; simpl in Hlenys; lia).
  set (h := mk_hdr (current_slot t) (parent_hash t)
              (sha256 (concat (map sig ys))) wallclock
              (sequencer_identity t) (Z.of_nat (length ys)) [] []).
  set (s := fd_ed25519_sign (hdr_fields_bytes h)
              (sequencer_identity t) (sequencer_privkey t)).
  exists (hdr_fields_bytes h ++ s). split.
  { rewrite length_app, hdr_fields_bytes_length by (cbn; auto).
    unfold s. by rewrite Hsign. }
  intros hdr0 Hpad.
  destruct (build_block_fields t hdr0 m wallclock Hinv)
    as (t1' & ys' & t' & b & Hdr' & Hb & _ & _ & Hcfg & Htx & Hcnt & Hhc & Hsl
        & Hpar & Hpub & Hne).
  assert (t1' = t1 ∧ ys' = ys) as [-> ->]
    by (rewrite Hdr in Hdr'; by simplify_eq).
  destruct (Hne Hys) as (Hmerk & Hts & Hpd & Hsig).
  assert (Hfb : hdr_fields_bytes (blk_hdr b) = hdr_fields_bytes h).
  { unfold hdr_fields_bytes, h. cbn [hdr_slot hdr_parent_hash hdr_merkle_root
      hdr_timestamp hdr_sequencer_pubkey hdr_txn_count].
    by rewrite Hsl, Hpar, Hmerk, Hts, Hpub, Hhc. }
  assert (Hsg : hdr_signature (blk_hdr b) = s).
  { rewrite Hsig. unfold s. f_equal.
    by rewrite hdr_signed_bytes_fields by (cbn; auto). }
  assert (Hfull : hdr_full_bytes (blk_hdr b)
                  = (hdr_fields_bytes h ++ s) ++ hdr_pad hdr0).
  { rewrite hdr_full_bytes_split;
      rewrite ?Hpar, ?Hmerk, ?Hpub, ?Hsg, ?Hpd; auto.
    - by rewrite Hfb, app_assoc.
    - unfold s. apply Hsign. }
  unfold fd_sequencer_tile_during_housekeeping.
  rewrite decide_False by lia. fold m. rewrite Hb.
  cbn [mbind option_bind fst snd].
  unfold fd_sequencer_advance_slot.
  cbn [cfg set_parent_hash current_slot]. rewrite Hcfg.
  repeat case_decide; try done;
    eexists _, _; (split; [reflexivity |]); by rewrite Hfull.
Qed.

Lemma housekeeping_not_due t now wallclock hdr0 :
  - 2 ^ 63 <= now - block_start_ticks t < 2 ^ 63 →
  0 < block_time_ns (cfg t) →
  now - block_start_ticks t < block_time_ns (cfg t) →
  housekeeping t now wallclock hdr0 = Some (t, None).
Proof.
  intros Hrange Hbt Hearly. unfold fd_sequencer_tile_during_housekeeping.
  rewrite decide_True; [done |].
  unfold elapsed_ns, wrap_long, wrap64.
  rewrite (Z.mod_small (_ + 2 ^ 63)) by lia.
  case_decide; [rewrite Z.mod_small; lia |].
  rewrite Z.mod_small; lia.
Qed.

(** X8.  Housekeeping produces a block exactly when the tick count has
    moved at least one block interval past the block start.  Before
    that, and also when the tick counter reads less than the block start
    (the negative difference is clamped to 0), it returns with no block
    and the tile unchanged. *)
Theorem housekeeping_trigger t now wallclock hdr0 :
  tile_inv t →
  - 2 ^ 63 <= now - block_start_ticks t < 2 ^ 63 →
  0 < block_time_ns (cfg t) →
  (now - block_start_ticks t < block_time_ns (cfg t) →
   housekeeping t now wallclock hdr0 = Some (t, None)) ∧
  (block_time_ns (cfg t) <= now - block_start_ticks t →
   ∃ t' b, housekeeping t now wallclock hdr0 = Some (t', Some b)).
Proof.
  intros (Hinv & Hbuf & Hsz & Hlen) Hrange Hbt. split.
  - intros Hearly. by apply housekeeping_not_due.
  - intros Hdue. unfold fd_sequencer_tile_during_housekeeping.
    assert (Hel : elapsed_ns t now = now - block_start_ticks t).
    { unfold elapsed_ns, wrap_long, wrap64.
      rewrite (Z.mod_small (_ + 2 ^ 63)) by lia.
      rewrite decide_False by lia. rewrite Z.mod_small; lia. }
    rewrite Hel. rewrite decide_False by lia.
    match goal with
    | |- context [build_block t hdr0 ?m wallclock] =>
        destruct (build_block_total sha256 fd_ed25519_sign t hdr0 m
                    wallclock Hinv)
          as (t0 & b & Hb & _ & _ & _ & Hcfg & _)
    end.
    rewrite Hb. simpl. unfold fd_sequencer_advance_slot. simpl. rewrite Hcfg.
    repeat case_decide; try done; simpl; by eexists _, _.
Qed.

(** X9.  A housekeeping call that is due produces one block, however
    many intervals have passed, and restarts the interval at [now]: a
    further call less than one interval later produces nothing. *)
Theorem housekeeping_one_block_per_interval t now wallclock hdr0 :
  tile_inv t → block_time_ns (cfg t) <= elapsed_ns t now →
  0 < block_time_ns (cfg t) →
  ∃ t1 b, housekeeping t now wallclock hdr0 = Some (t1, Some b) ∧
          block_start_ticks t1 = now ∧
          ∀ now' wallclock' hdr0',
            0 <= now' - now < block_time_ns (cfg t) → now' - now < 2 ^ 63 →
            housekeeping t1 now' wallclock' hdr0' = Some (t1, None).
Proof.
  intros (Hinv & Hbuf & Hsz & Hlen) Hdue Hbt.
  unfold fd_sequencer_tile_during_housekeeping at 1.
  rewrite decide_False by lia.
  match goal with
  | |- context [build_block t hdr0 ?m wallclock] =>
      destruct (build_block_total sha256 fd_ed25519_sign t hdr0 m wallclock Hinv)
        as (t0 & b & Hb & _ & _ & _ & Hcfg & _)
  end.
  rewrite Hb. simpl. unfold fd_sequencer_advance_slot. simpl. rewrite Hcfg.
  assert (Hlater : ∀ t1, block_start_ticks t1 = now → cfg t1 = cfg t →
            ∀ now' wallclock' hdr0',
              0 <= now' - now < block_time_ns (cfg t) → now' - now < 2 ^ 63 →
              housekeeping t1 now' wallclock' hdr0' = Some (t1, None)).
  { intros t1 Hst Hc now' wc' h' Hwin Hfit.
    apply housekeeping_not_due; rewrite ?Hst, ?Hc; lia. }
  repeat case_decide; try done; simpl;
    eexists _, _; (split; [reflexivity |]); (split; [done |]);
    by apply Hlater.
Qed.

(** X10.  The block a due housekeeping call produces holds as many
    entries as the queue has, up to the configured maximum and never more
    than 10000, whatever the configuration says. *)
Theorem housekeeping_block_size t now wallclock hdr0 :
  tile_inv t → block_time_ns (cfg t) <= elapsed_ns t now →
  0 <= max_txns_per_block (cfg t) →
  ∃ t' b, housekeeping t now wallclock hdr0 = Some (t', Some b) ∧
          blk_cnt b
            = Z.min (Z.min (max_txns_per_block (cfg t)) 10000)
                    (tx_queue_cnt t) ∧
          Z.of_nat (length (blk_txns b)) = blk_cnt b ∧
          blk_cnt b <= 10000 ∧
          tx_queue_cnt t' = tx_queue_cnt t - blk_cnt b.
Proof.
  intros (Hinv & Hbuf & Hsz & Hlen) Hdue Hmax.
  unfold fd_sequencer_tile_during_housekeeping.
  rewrite decide_False by lia.
  set (m := if decide (max_txns_per_block (cfg t) > 10000) then 10000
            else max_txns_per_block (cfg t)).
  assert (Hm : wrap32 m = Z.min (max_txns_per_block (cfg t)) 10000).
  { unfold m, wrap32. case_decide; rewrite Z.mod_small; lia. }
  destruct (build_block_fields t hdr0 m wallclock Hinv)
    as (t1 & ys & t0 & b & Hdr & Hb & _ & Hc & Hcfg & Htx & Hcnt & _).
  destruct (drain_correct (Z.to_nat (wrap32 m)) t Hinv)
    as (t1' & ys' & Hdr' & _ & _ & Hlenys & Hleft & _).
  assert (t1' = t1 ∧ ys' = ys) as [-> ->]
    by (rewrite Hdr in Hdr'; by simplify_eq).
  rewrite Hb. simpl. unfold fd_sequencer_advance_slot. simpl. rewrite Hcfg.
  repeat case_decide; try done; simpl;
    eexists _, _; (split; [reflexivity |]); simpl; rewrite Htx;
    split_and!; lia.
Qed.

End BlockProperties.

Lemma example_sha256_length m : length (example_sha256 m) = 32%nat.
Proof. apply le_bytes_length. Qed.

Lemma example_sign_length m pk sk : length (example_sign m pk sk) = 64%nat.
Proof.
  unfold example_sign. by rewrite length_app, !example_sha256_length.
Qed.

Lemma build_block_takes_highest_witness :
  ∃ t' b, fd_sequencer_build_block example_sha256 example_sign full_tile
            hdr_zero 1 1700000000000000000 = Some (t', b) ∧
          blk_cnt b = Z.min (wrap32 1) (tx_queue_cnt full_tile) ∧
          blk_cnt b = Z.of_nat (length (blk_txns b)) ∧
          hdr_txn_count (blk_hdr b) = blk_cnt b ∧
          tx_queue_cnt t' = tx_queue_cnt full_tile - blk_cnt b ∧
          blk_txns b ++ stored t' ≡ₚ stored full_tile ∧
          ∀ y z, y ∈ blk_txns b → z ∈ stored t' → fee z <= fee y.
Proof.
  apply (build_block_takes_highest example_sha256 example_sign full_tile).
  split.
  - unfold queue_wf. simpl. lia.
  - apply heap_orderedb_correct. reflexivity.
Defined.

Lemma build_block_fee_total_witness :
  ∃ t' b, fd_sequencer_build_block example_sha256 example_sign full_tile
            hdr_zero 10000 1700000000000000000 = Some (t', b) ∧
          fee_total t'
            = wrap64 (fee_total full_tile + sum_fees (blk_txns b)) ∧
          (blk_txns b = [] → fee_total t' = fee_total full_tile).
Proof.
  apply (build_block_fee_total example_sha256 example_sign full_tile).
  - split.
    + unfold queue_wf. simpl. lia.
    + apply heap_orderedb_correct. reflexivity.
  - simpl. lia.
Defined.

Lemma build_block_header_witness :
  ∃ t' b, fd_sequencer_build_block example_sha256 example_sign full_tile
            hdr_zero 10000 1700000000000000000 = Some (t', b) ∧
          blk_cnt b > 0 ∧
          hdr_slot (blk_hdr b) = current_slot full_tile ∧
          hdr_parent_hash (blk_hdr b) = parent_hash full_tile ∧
          hdr_merkle_root (blk_hdr b)
            = example_sha256 (concat (map sig (blk_txns b))) ∧
          hdr_timestamp (blk_hdr b) = 1700000000000000000 ∧
          hdr_sequencer_pubkey (blk_hdr b) = sequencer_identity full_tile ∧
          hdr_signature (blk_hdr b)
            = example_sign (hdr_fields_bytes (blk_hdr b))
                (sequencer_identity full_tile) (sequencer_privkey full_tile) ∧
          length (hdr_fields_bytes (blk_hdr b)) = 116%nat.
Proof.
  apply (build_block_header example_sha256 example_sign full_tile).
  - split.
    + unfold queue_wf. simpl. lia.
    + apply heap_orderedb_correct. reflexivity.
  - simpl. lia.
  - vm_compute. reflexivity.
  - reflexivity.
  - reflexivity.
  - apply example_sha256_length.
Defined.

Lemma parent_hash_covers_padding_witness :
  ∃ pre, length pre = 180%nat ∧
    ∀ hdr0, length (hdr_pad hdr0) = 4%nat →
      ∃ t' b,
        fd_sequencer_tile_during_housekeeping example_sha256 example_sign
          full_tile 400000000 1700000000000000000 hdr0
          = Some (t', Some b) ∧
        hdr_full_bytes (blk_hdr b) = pre ++ hdr_pad hdr0 ∧
        parent_hash t' = example_sha256 (pre ++ hdr_pad hdr0).
Proof.
  apply (parent_hash_covers_padding example_sha256 example_sign full_tile).
  - split; [split |].
    + unfold queue_wf. simpl. lia.
    + apply heap_orderedb_correct. reflexivity.
    + unfold FD_SEQUENCER_TXN_MTU. simpl. lia.
  - vm_compute. discriminate.
  - simpl. lia.
  - simpl. lia.
  - reflexivity.
  - reflexivity.
  - apply example_sha256_length.
  - apply example_sign_length.
Defined.

Lemma housekeeping_trigger_witness :
  fd_sequencer_tile_during_housekeeping example_sha256 example_sign
    (set_block_start_ticks full_tile 1000) 900 1700000000000000000 hdr_zero
  = Some (set_block_start_ticks full_tile 1000, None) ∧
  ∃ t' b,
    fd_sequencer_tile_during_housekeeping example_sha256 example_sign
      full_tile 400000000 1700000000000000000 hdr_zero
    = Some (t', Some b).
Proof.
  split.
  - apply (housekeeping_trigger example_sha256 example_sign
             (set_block_start_ticks full_tile 1000) 900).
    + split; [split |].
      * unfold queue_wf. simpl. lia.
      * apply heap_orderedb_correct. reflexivity.
      * unfold FD_SEQUENCER_TXN_MTU. simpl. lia.
    + simpl. lia.
    + simpl. lia.
    + simpl. lia.
  - apply (housekeeping_trigger example_sha256 example_sign full_tile
             400000000).
    + split; [split |].
      * unfold queue_wf. simpl. lia.
      * apply heap_orderedb_correct. reflexivity.
      * unfold FD_SEQUENCER_TXN_MTU. simpl. lia.
    + simpl. lia.
    + simpl. lia.
    + simpl. lia.
Defined.

Lemma housekeeping_one_block_per_interval_witness :
  ∃ t1 b,
    fd_sequencer_tile_during_housekeeping example_sha256 example_sign
      full_tile 1200000000 1700000000000000000 hdr_zero
      = Some (t1, Some b) ∧
    block_start_ticks t1 = 1200000000 ∧
    ∀ now' wallclock' hdr0',
      0 <= now' - 1200000000 < block_time_ns (cfg full_tile) →
      now' - 1200000000 < 2 ^ 63 →
      fd_sequencer_tile_during_housekeeping example_sha256 example_sign
        t1 now' wallclock' hdr0' = Some (t1, None).
Proof.
  apply (housekeeping_one_block_per_interval example_sha256 example_sign
           full_tile 1200000000).
  - split; [split |].
    + unfold queue_wf. simpl. lia.
    + apply heap_orderedb_correct. reflexivity.
    + unfold FD_SEQUENCER_TXN_MTU. simpl. lia.
  - vm_compute. discriminate.
  - simpl. lia.
Defined.

Lemma housekeeping_block_size_witness :
  ∃ t' b,
    fd_sequencer_tile_during_housekeeping example_sha256 example_sign
      full_tile 400000000 1700000000000000000 hdr_zero
      = Some (t', Some b) ∧
    blk_cnt b
      = Z.min (Z.min (max_txns_per_block (cfg full_tile)) 10000)
              (tx_queue_cnt full_tile) ∧
    Z.of_nat (length (blk_txns b)) = blk_cnt b ∧
    blk_cnt b <= 10000 ∧
    tx_queue_cnt t' = tx_queue_cnt full_tile - blk_cnt b.
Proof.
  apply (housekeeping_block_size example_sha256 example_sign full_tile
           400000000).
  - split; [split |].
    + unfold queue_wf. simpl. lia.
    + apply heap_orderedb_correct. reflexivity.
    + unfold FD_SEQUENCER_TXN_MTU. simpl. lia.
  - vm_compute. discriminate.
  - simpl. lia.
Defined.

(** ** Ingestion: what the completion callback enqueues *)

Lemma push_cases t x :
  queue_inv t →
  (tx_queue_cnt t >= tx_queue_cap t ∧
   fd_sequencer_txn_queue_push t x = Some (t, 0)) ∨
  (tx_queue_cnt t < tx_queue_cap t ∧
   ∃ q', fd_sequencer_txn_queue_push t x
           = Some (set_queue t q' (tx_queue_cnt t + 1), 1) ∧
         queue_inv (set_queue t q' (tx_queue_cnt t + 1)) ∧
         stored (set_queue t q' (tx_queue_cnt t + 1)) ≡ₚ x :: stored t).
Proof.
  intros Hinv.
  destruct (decide (tx_queue_cnt t >= tx_queue_cap t)) as [Hfull | Hroom].
  - left. split; [done |]. by apply push_full.
  - right. split; [lia |]. apply push_correct; [done | lia].
Qed.

(** The three outcomes of the completion callback: nothing staged, queue
    full, entry enqueued; in the last one, the entry that was built. *)
Lemma after_frag_cases t opt_sig ticks :
  tile_inv t →
  (frag_buf_sz t = 0 ∧
   fd_sequencer_tile_after_frag t opt_sig ticks = Some t) ∨
  (frag_buf_sz t > 0 ∧ tx_queue_cnt t >= tx_queue_cap t ∧
   fd_sequencer_tile_after_frag t opt_sig ticks
     = Some (set_frag t (frag_buf t) 0)) ∨
  (frag_buf_sz t > 0 ∧ tx_queue_cnt t < tx_queue_cap t ∧
   ∃ q' x,
     fd_sequencer_tile_after_frag t opt_sig ticks
       = Some (set_frag
                 (set_txn_count (set_queue t q' (tx_queue_cnt t + 1))
                    (wrap64 (txn_count t + 1)))
                 (frag_buf t) 0) ∧
     queue_inv (set_queue t q' (tx_queue_cnt t + 1)) ∧
     stored (set_queue t q' (tx_queue_cnt t + 1)) ≡ₚ x :: stored t ∧
     payload x
       = staged t
         ++ zeros (Z.to_nat (FD_SEQUENCER_TXN_MTU - frag_buf_sz t)) ∧
     payload_sz x = frag_buf_sz t ∧
     received_ticks x = ticks ∧
     fee x = match opt_sig with
             | Some v => if decide (v > 0) then v else 5000
             | None => 5000
             end ∧
     sig x = if decide (frag_buf_sz t >= 65)
             then take 64 (drop 1 (staged t)) else zeros 64).
Proof.
  intros (Hq & Hbuf & Hsz & Hlen). unfold fd_sequencer_tile_after_frag.
  case_decide as Hz; [by left |]. right.
  assert (Hzeros : length (payload txn_zero) = Z.to_nat FD_SEQUENCER_TXN_MTU)
    by apply length_replicate.
  rewrite (fd_memcpy_in_range (payload txn_zero)) by lia.
  assert (Hp : take (Z.to_nat (frag_buf_sz t)) (frag_buf t)
               ++ drop (Z.to_nat (frag_buf_sz t)) (payload txn_zero)
               = staged t
                 ++ zeros (Z.to_nat (FD_SEQUENCER_TXN_MTU - frag_buf_sz t))).
  { unfold staged. f_equal. cbn [payload txn_zero]. unfold zeros.
    rewrite drop_replicate. f_equal. lia. }
  rewrite Hp. clear Hp.
  assert (Hst : length (staged t) = Z.to_nat (frag_buf_sz t)).
  { unfold staged. rewrite length_take. lia. }
  set (p := staged t ++ zeros _).
  assert (Hplen : length p = Z.to_nat FD_SEQUENCER_TXN_MTU).
  { unfold p, zeros. rewrite length_app, length_replicate, Hst. lia. }
  cbn [mbind option_bind].
  set (s := if decide (frag_buf_sz t >= 65) then _ else _).
  assert (Hs : s = Some (if decide (frag_buf_sz t >= 65)
                         then take 64 (drop 1 (staged t)) else zeros 64)).
  { unfold s. case_decide as H65; [| done].
    rewrite fd_memcpy_in_range;
      [| vm_compute; lia | rewrite length_drop, Hplen; vm_compute; lia].
    f_equal. change (Z.to_nat 64) with 64%nat.
    change (drop 64 (sig txn_zero)) with (@nil Z). rewrite app_nil_r.
    unfold p. rewrite drop_app_le by (rewrite Hst; lia).
    apply take_app_le. rewrite length_drop, Hst. lia. }
  rewrite Hs. cbn [mbind option_bind].
  match goal with
  | |- context [fd_sequencer_txn_queue_push t ?x] =>
      destruct (push_cases t x Hq)
        as [(Hfull & Hpush) | (Hroom & q' & Hpush & Hq' & Hperm)];
      rewrite Hpush; cbn [mbind option_bind fst snd]
  end.
  - left. rewrite decide_True by done. split_and!; [lia | done | done].
  - right. rewrite decide_False by done. split; [lia |]. split; [done |].
    eexists q', _. split; [reflexivity |]. by split_and!.
Qed.

(** X11.  With bytes staged and room in the queue, the completion
    callback enqueues one entry and resets the staging size to 0.  The
    entry's payload is the staged bytes followed by zeros up to the MTU,
    its size the staged size, its arrival time the tick count; its fee is
    the priority hint when a hint is passed and is not 0, else 5000; its
    signature is the 64 payload bytes after the first one when at least
    65 bytes are staged, else 64 zero bytes.  The lifetime transaction
    counter goes up by 1. *)
Theorem after_frag_enqueues t opt_sig ticks :
  tile_inv t → frag_buf_sz t > 0 → tx_queue_cnt t < tx_queue_cap t →
  ∃ t' x,
    fd_sequencer_tile_after_frag t opt_sig ticks = Some t' ∧
    stored t' ≡ₚ x :: stored t ∧
    tx_queue_cnt t' = tx_queue_cnt t + 1 ∧
    txn_count t' = wrap64 (txn_count t + 1) ∧
    frag_buf_sz t' = 0 ∧
    payload x
      = staged t ++ zeros (Z.to_nat (FD_SEQUENCER_TXN_MTU - frag_buf_sz t)) ∧
    payload_sz x = frag_buf_sz t ∧
    received_ticks x = ticks ∧
    fee x = match opt_sig with
            | Some v => if decide (v > 0) then v else 5000
            | None => 5000
            end ∧
    sig x = if decide (frag_buf_sz t >= 65)
            then take 64 (drop 1 (staged t)) else zeros 64.
Proof.
  intros Hinv Hsz Hroom.
  destruct (after_frag_cases t opt_sig ticks Hinv)
    as [(? & _) | [(_ & ? & _) | (_ & _ & q' & x & Hr & _ & Hperm & H)]];
    [lia | lia |].
  eexists _, x. split; [exact Hr |]. destruct H as (? & ? & ? & ? & ?).
  by split_and!.
Qed.

Lemma after_frag_enqueues_witness :
  ∃ t' x,
    fd_sequencer_tile_after_frag
      (set_frag (example_tile 2)
         ([1; 2; 3] ++ zeros (Z.to_nat FD_SEQUENCER_TXN_MTU - 3)) 3)
      (Some 7000) 42 = Some t' ∧
    stored t' ≡ₚ x :: stored (example_tile 2) ∧
    tx_queue_cnt t' = tx_queue_cnt (example_tile 2) + 1 ∧
    txn_count t' = wrap64 (txn_count (example_tile 2) + 1) ∧
    frag_buf_sz t' = 0 ∧
    payload x = [1; 2; 3] ++ zeros (Z.to_nat (FD_SEQUENCER_TXN_MTU - 3)) ∧
    payload_sz x = 3 ∧
    received_ticks x = 42 ∧
    fee x = 7000 ∧
    sig x = zeros 64.
Proof.
  apply (after_frag_enqueues
           (set_frag (example_tile 2)
              ([1; 2; 3] ++ zeros (Z.to_nat FD_SEQUENCER_TXN_MTU - 3)) 3)
           (Some 7000) 42).
  - split; [split |].
    + unfold queue_wf. simpl. lia.
    + intros i Hi. simpl in Hi. lia.
    + unfold FD_SEQUENCER_TXN_MTU. simpl. lia.
  - simpl. lia.
  - simpl. lia.
Defined.

(** X12.  With bytes staged and the queue full, the completion callback
    drops the transaction: it resets the staging size to 0 and leaves the
    queue, the lifetime transaction counter and every other field as they
    were. *)
Theorem after_frag_queue_full t opt_sig ticks :
  tile_inv t → frag_buf_sz t > 0 → tx_queue_cnt t = tx_queue_cap t →
  fd_sequencer_tile_after_frag t opt_sig ticks
    = Some (set_frag t (frag_buf t) 0).
Proof.
  intros Hinv Hsz Hfull.
  destruct (after_frag_cases t opt_sig ticks Hinv)
    as [(? & _) | [(_ & _ & Hr) | (_ & ? & _)]]; [lia | done | lia].
Qed.

Lemma after_frag_queue_full_witness :
  fd_sequencer_tile_after_frag (set_frag full_tile (frag_buf full_tile) 10)
    None 42
  = Some (set_frag (set_frag full_tile (frag_buf full_tile) 10)
            (frag_buf (set_frag full_tile (frag_buf full_tile) 10)) 0).
Proof.
  apply (after_frag_queue_full
           (set_frag full_tile (frag_buf full_tile) 10) None 42).
  - split; [split |].
    + unfold queue_wf. simpl. lia.
    + apply heap_orderedb_correct. reflexivity.
    + unfold FD_SEQUENCER_TXN_MTU. simpl. lia.
  - simpl. lia.
  - reflexivity.
Defined.

(** X13.  The completion callback consumes what is staged: whatever it
    did, a second completion callback without a new fragment in between
    enqueues nothing and changes nothing. *)
Theorem after_frag_consumes_staging t opt_sig ticks :
  tile_inv t →
  ∃ t', fd_sequencer_tile_after_frag t opt_sig ticks = Some t' ∧
        frag_buf_sz t' = 0 ∧
        ∀ opt_sig' ticks',
          fd_sequencer_tile_after_frag t' opt_sig' ticks' = Some t'.
Proof.
  intros Hinv.
  assert (Hnop : ∀ t', frag_buf_sz t' = 0 → ∀ o k,
            fd_sequencer_tile_after_frag t' o k = Some t').
  { intros t' Hz o k. unfold fd_sequencer_tile_after_frag.
    by rewrite decide_True. }
  destruct (after_frag_cases t opt_sig ticks Hinv)
    as [(Hz & Hr) | [(_ & _ & Hr) | (_ & _ & q' & x & Hr & _)]];
    rewrite Hr; eexists; (split; [reflexivity |]);
    (split; [done |]); by apply Hnop.
Qed.

Lemma after_frag_consumes_staging_witness :
  ∃ t',
    fd_sequencer_tile_after_frag
      (set_frag (example_tile 2) (frag_buf (example_tile 2)) 3)
      (Some 7000) 42 = Some t' ∧
    frag_buf_sz t' = 0 ∧
    ∀ opt_sig' ticks',
      fd_sequencer_tile_after_frag t' opt_sig' ticks' = Some t'.
Proof.
  apply (after_frag_consumes_staging
           (set_frag (example_tile 2) (frag_buf (example_tile 2)) 3)
           (Some 7000) 42).
  split; [split |].
  - unfold queue_wf. simpl. lia.
  - intros i Hi. simpl in Hi. lia.
  - unfold FD_SEQUENCER_TXN_MTU. simpl. lia.
Defined.

(** X14.  Delivering a fragment of 1 to MTU bytes and completing it
    enqueues, when the queue has room, one entry whose payload is the
    fragment's bytes followed by zeros up to the MTU and whose size is
    the fragment's size; what an earlier fragment left in the staging
    buffer does not reach the entry. *)
Theorem ingest_fragment t chunk sz opt_sig ticks :
  tile_inv t → 0 < sz <= FD_SEQUENCER_TXN_MTU →
  sz <= Z.of_nat (length chunk) → tx_queue_cnt t < tx_queue_cap t →
  ∃ t1 t2 x,
    fd_sequencer_tile_during_frag t chunk sz = Some t1 ∧
    fd_sequencer_tile_after_frag t1 opt_sig ticks = Some t2 ∧
    stored t2 ≡ₚ x :: stored t ∧
    payload x
      = take (Z.to_nat sz) chunk
        ++ zeros (Z.to_nat (FD_SEQUENCER_TXN_MTU - sz)) ∧
    payload_sz x = sz ∧
    txn_count t2 = wrap64 (txn_count t + 1) ∧
    frag_buf_sz t2 = 0.
Proof.
  intros (Hq & Hbuf & Hsz0 & Hlen) Hsz Hchunk Hroom.
  destruct (during_frag_in_range t chunk sz Hbuf) as (buf & Hd & Hlenb & Htake & _);
    [lia | lia |].
  set (t1 := set_frag t buf sz) in *.
  assert (Hinv1 : tile_inv t1).
  { split; [exact Hq |]. simpl. split_and!; try done; lia. }
  destruct (after_frag_cases t1 opt_sig ticks Hinv1)
    as [(Hz & _) | [(_ & Hfull & _) | (_ & _ & q' & x & Hr & _ & Hperm & Hpay
                                       & Hps & _)]];
    [simpl in Hz; lia | simpl in Hfull; lia |].
  eexists t1, _, x. split; [exact Hd |]. split; [exact Hr |].
  split_and!; try done.
  rewrite Hpay. unfold staged. simpl. by rewrite Htake.
Qed.

Lemma ingest_fragment_witness :
  ∃ t1 t2 x,
    fd_sequencer_tile_during_frag
      (set_frag (example_tile 2)
         (replicate (Z.to_nat FD_SEQUENCER_TXN_MTU) 255) 0)
      [7; 8; 9] 3 = Some t1 ∧
    fd_sequencer_tile_after_frag t1 None 42 = Some t2 ∧
    stored t2 ≡ₚ x :: stored (example_tile 2) ∧
    payload x
      = take (Z.to_nat 3) [7; 8; 9]
        ++ zeros (Z.to_nat (FD_SEQUENCER_TXN_MTU - 3)) ∧
    payload_sz x = 3 ∧
    txn_count t2 = wrap64 (txn_count (example_tile 2) + 1) ∧
    frag_buf_sz t2 = 0.
Proof.
  apply (ingest_fragment
           (set_frag (example_tile 2)
              (replicate (Z.to_nat FD_SEQUENCER_TXN_MTU) 255) 0)
           [7; 8; 9] 3 None 42).
  - split; [split |].
    + unfold queue_wf. simpl. lia.
    + intros i Hi. simpl in Hi. lia.
    + unfold FD_SEQUENCER_TXN_MTU. simpl. lia.
  - unfold FD_SEQUENCER_TXN_MTU. lia.
  - simpl. lia.
  - simpl. lia.
Defined.

(** X15.  A fragment of size 0 is accepted and stages nothing: the
    completion callback that follows enqueues nothing, and queue and
    lifetime transaction counter stay as they were. *)
Theorem empty_fragment_ignored t chunk opt_sig ticks :
  ∃ t1, fd_sequencer_tile_during_frag t chunk 0 = Some t1 ∧
        fd_sequencer_tile_after_frag t1 opt_sig ticks = Some t1 ∧
        frag_buf t1 = frag_buf t ∧ frag_buf_sz t1 = 0 ∧
        tx_queue t1 = tx_queue t ∧ tx_queue_cnt t1 = tx_queue_cnt t ∧
        txn_count t1 = txn_count t.
Proof.
  exists (set_frag t (frag_buf t) 0).
  unfold fd_sequencer_tile_during_frag, fd_sequencer_tile_after_frag.
  rewrite decide_False by (unfold FD_SEQUENCER_TXN_MTU; lia).
  rewrite fd_memcpy_in_range by (simpl; lia).
  by split_and!.
Qed.

(** ** Runs of callbacks: what is conserved *)

Lemma div_succ s L :
  0 < L → 0 <= s →
  (s + 1) / L = if decide ((s + 1) mod L = 0) then s / L + 1 else s / L.
Proof.
  intros HL Hs.
  pose proof (Z.div_mod s L ltac:(lia)) as Hdm.
  pose proof (Z.mod_pos_bound s L HL) as Hmb.
  destruct (decide (s mod L + 1 = L)) as [Hfull | Hnot].
  - assert (Heq : s + 1 = (s / L + 1) * L) by lia.
    rewrite decide_True by (rewrite Heq; apply Z.mod_mul; lia).
    rewrite Heq at 1. apply Z.div_mul. lia.
  - assert (Hq : (s + 1) / L = s / L).
    { symmetry. apply Z.div_unique with (r := s mod L + 1); lia. }
    assert (Hr : (s + 1) mod L = s mod L + 1).
    { symmetry. apply Z.mod_unique with (q := s / L); lia. }
    rewrite decide_False by lia. exact Hq.
Qed.

Section RunProperties.

Variable sha256 : list Z → list Z.
Variable fd_ed25519_sign : list Z → list Z → list Z → list Z.

Local Abbreviation run := (run_events sha256 fd_ed25519_sign).

Lemma build_block_frame t hdr0 max_txns wallclock :
  queue_inv t →
  ∃ t' b,
    fd_sequencer_build_block sha256 fd_ed25519_sign t hdr0 max_txns wallclock
      = Some (t', b) ∧
    queue_inv t' ∧
    cfg t' = cfg t ∧ frag_buf t' = frag_buf t ∧
    frag_buf_sz t' = frag_buf_sz t ∧
    current_slot t' = current_slot t ∧ current_epoch t' = current_epoch t ∧
    block_count t' = block_count t ∧ txn_count t' = txn_count t ∧
    hdr_slot (blk_hdr b) = current_slot t ∧
    blk_cnt b = Z.of_nat (length (blk_txns b)) ∧
    tx_queue_cnt t' = tx_queue_cnt t - blk_cnt b ∧
    wrap64 (fee_total t') = wrap64 (fee_total t + sum_fees (blk_txns b)).
Proof.
  intros Hinv. unfold fd_sequencer_build_block.
  destruct (drain_correct (Z.to_nat (wrap32 max_txns)) t Hinv)
    as (t1 & ys & Hdr & Hinv1 & Heq & _ & Hleft & _).
  destruct (set_queue_fields _ _ _ _ Heq)
    as (_ & _ & Hsl & Hep & Hbc & Htc & _ & Hft & _).
  destruct (set_queue_frame _ _ _ _ Heq) as (_ & Hcfg & Hfb & Hfs).
  rewrite Hdr. cbn [mbind option_bind fst snd].
  case_decide as Hn; eexists _, _; (split; [reflexivity |]);
    (split; [exact Hinv1 |]);
    cbn [blk_hdr blk_txns blk_cnt hdr_slot set_fee_total cfg frag_buf
         frag_buf_sz current_slot current_epoch block_count txn_count
         tx_queue_cnt fee_total];
    split_and!; try done; try lia.
  - destruct ys; [| simpl in Hn; lia]. simpl. by rewrite Hft, Z.add_0_r.
  - by rewrite fold_fees_wrap, Hft.
Qed.

Lemma step_effect t ev :
  tile_inv t → event_ok ev →
  ∃ t' ob, step sha256 fd_ed25519_sign t ev = Some (t', ob) ∧
           tile_inv t' ∧ step_post t ob t'.
Proof.
  intros Hinv Hok.
  destruct ev as [chunk sz | opt_sig ticks | now wc hdr0]; cbn [step].
  - destruct Hinv as (Hq & Hbuf & Hsz & Hlen). destruct Hok as [Hpos Hchunk].
    destruct (decide (sz > FD_SEQUENCER_TXN_MTU)) as [Hbig | Hfit].
    + unfold fd_sequencer_tile_during_frag. rewrite decide_True by done.
      eexists _, None. split; [reflexivity |]. split.
      * split; [exact Hq |]. simpl. by split_and!.
      * split; [done |]. simpl. split_and!; try done. by left.
    + destruct (during_frag_in_range t chunk sz Hbuf) as (buf & Hd & Hlenb & _);
        [lia | lia |].
      rewrite Hd. eexists _, None. split; [reflexivity |]. split.
      * split; [exact Hq |]. simpl. split_and!; try done; lia.
      * split; [done |]. simpl. split_and!; try done. by left.
  - destruct (after_frag_total sha256 fd_ed25519_sign t opt_sig ticks Hinv)
      as (t' & Hr & Hinv' & _).
    rewrite Hr. eexists _, None. split; [reflexivity |]. split; [done |].
    destruct (after_frag_cases t opt_sig ticks Hinv)
      as [(_ & Hr') | [(_ & _ & Hr') | (_ & _ & q' & x & Hr' & _)]];
      rewrite Hr in Hr'; injection Hr' as ->;
      (split; [done |]); simpl; split_and!; try done;
      (by left) || (right; done).
  - destruct Hinv as (Hq & Hbuf & Hsz & Hlen).
    unfold fd_sequencer_tile_during_housekeeping.
    case_decide as Hdue.
    { exists t, None. split; [done |].
      split; [exact (conj Hq (conj Hbuf (conj Hsz Hlen))) |].
      split; [done |]. split_and!; try done. by left. }
    match goal with
    | |- context [fd_sequencer_build_block _ _ t hdr0 ?m wc] =>
        destruct (build_block_frame t hdr0 m wc Hq)
          as (t1 & b & Hb & Hq1 & Hcfg & Hfb & Hfs & Hsl & Hep & Hbc & Htc
              & Hhs & Hbl & Hleft & Hfee)
    end.
    rewrite Hb. cbn [mbind option_bind fst snd].
    unfold fd_sequencer_advance_slot.
    cbn [cfg set_parent_hash current_slot current_epoch block_count].
    rewrite Hcfg, Hsl, Hep, Hbc.
    assert (Hw : 0 <= wrap64 (current_slot t + 1)) by (unfold wrap64; lia).
    assert (Hinv1 : ∀ h s e k n,
              tile_inv (set_block_start_ticks
                          (set_position (set_parent_hash t1 h) s e k) n)).
    { intros. split; [exact Hq1 |]. simpl. by rewrite Hcfg, Hfb, Hfs. }
    repeat case_decide; try done; cbn [mbind option_bind fst snd];
      eexists _, (Some b); (split; [reflexivity |]);
      (split; [apply Hinv1 |]); (split; [exact Hcfg |]);
      cbn [set_block_start_ticks set_position set_parent_hash current_slot
           current_epoch block_count txn_count tx_queue_cnt fee_total];
      split_and!; try done;
      (rewrite decide_True by (split; [lia | done]); done)
      || (rewrite decide_False by tauto; done)
      || (rewrite decide_False by lia; done).
Qed.

(** X16.  From a tile that satisfies the tile invariant, any sequence of
    callbacks on readable fragments runs without an out-of-range access
    and leaves a tile that satisfies it again: the queue is a heap within
    its capacity, at most MTU bytes are staged.  The configuration is
    never changed, and there is at most one block per callback. *)
Theorem run_keeps_invariant t evs :
  tile_inv t → Forall event_ok evs →
  ∃ t' bs, run t evs = Some (t', bs) ∧ tile_inv t' ∧ cfg t' = cfg t ∧
           (length bs <= length evs)%nat.
Proof.
  intros Hinv Hok. revert t Hinv.
  induction Hok as [|ev evs Hev Hevs IH]; intros t Hinv; simpl.
  - exists t, []. by split_and!.
  - destruct (step_effect t ev Hinv Hev) as (t1 & ob & Hstep & Hinv1 & Hcfg & _).
    rewrite Hstep. cbn [mbind option_bind fst snd].
    destruct (IH t1 Hinv1) as (t' & bs & Hrun & Hinv' & Hcfg' & Hlen).
    rewrite Hrun. cbn [mbind option_bind fst snd].
    eexists _, _. split; [reflexivity |]. split_and!; [done | congruence |].
    rewrite length_app. destruct ob; simpl; lia.
Qed.

(** X17.  The slot advances by one per produced block and by nothing
    else: after a run the tile's slot is the slot it started with plus
    the number of blocks produced, and the block number [i] of the run
    carries the slot the run started with plus [i]. *)
Theorem run_slot_numbers t evs :
  tile_inv t → Forall event_ok evs →
  0 <= current_slot t →
  current_slot t + Z.of_nat (length evs) < 2 ^ 64 →
  ∃ t' bs, run t evs = Some (t', bs) ∧
           current_slot t' = current_slot t + Z.of_nat (length bs) ∧
           ∀ (i : nat) b, bs !! i = Some b →
             hdr_slot (blk_hdr b) = current_slot t + Z.of_nat i.
Proof.
  intros Hinv Hok. revert t Hinv.
  induction Hok as [|ev evs Hev Hevs IH]; intros t Hinv Hpos Hbound;
    simpl in *.
  - exists t, []. split_and!; [done | simpl; lia | done].
  - destruct (step_effect t ev Hinv Hev) as (t1 & ob & Hstep & Hinv1 & _ & Hpost).
    rewrite Hstep. cbn [mbind option_bind fst snd].
    assert (Hs1 : current_slot t1
                  = current_slot t + Z.of_nat (length (from_option (λ b, [b]) [] ob))
                  ∧ ∀ b, ob = Some b → hdr_slot (blk_hdr b) = current_slot t).
    { destruct ob as [b |]; simpl.
      - destruct Hpost as (Hhs & Hsl & _). rewrite Hsl, wrap64_small by lia.
        split; [done |]. by intros ? [= <-].
      - destruct Hpost as (Hsl & _). split; [lia | done]. }
    destruct Hs1 as [Hs1 Hhs].
    destruct (IH t1 Hinv1) as (t' & bs & Hrun & Hend & Hnum).
    { destruct ob; simpl in Hs1; lia. }
    { destruct ob; simpl in Hs1; lia. }
    rewrite Hrun. cbn [mbind option_bind fst snd].
    eexists _, _. split; [reflexivity |]. split.
    + rewrite length_app. lia.
    + intros i b Hb. destruct ob as [b0 |]; simpl in *.
      * destruct i as [|i]; simpl in Hb.
        -- simplify_eq. rewrite (Hhs b eq_refl). lia.
        -- rewrite (Hnum i b Hb). lia.
      * rewrite (Hnum i b Hb). lia.
Qed.

(** X18.  No transaction is counted twice or lost: over any run, the
    lifetime transaction counter grows by exactly the growth of the
    queue count plus the number of entries put into blocks. *)
Theorem run_txn_conservation t evs :
  tile_inv t → Forall event_ok evs →
  0 <= txn_count t →
  txn_count t + Z.of_nat (length evs) < 2 ^ 64 →
  ∃ t' bs, run t evs = Some (t', bs) ∧
           txn_count t' + tx_queue_cnt t
             = txn_count t + tx_queue_cnt t'
               + Z.of_nat (length (all_txns bs)) ∧
           txn_count t <= txn_count t' <=
             txn_count t + Z.of_nat (length evs).
Proof.
  intros Hinv Hok. revert t Hinv.
  induction Hok as [|ev evs Hev Hevs IH]; intros t Hinv Hpos Hbound;
    simpl in *.
  - exists t, []. split_and!; [done | simpl; lia | lia | lia].
  - destruct (step_effect t ev Hinv Hev) as (t1 & ob & Hstep & Hinv1 & _ & Hpost).
    rewrite Hstep. cbn [mbind option_bind fst snd].
    assert (H1 : txn_count t1 + tx_queue_cnt t
                 = txn_count t + tx_queue_cnt t1
                   + Z.of_nat (length (all_txns (from_option (λ b, [b]) [] ob)))
                 ∧ txn_count t <= txn_count t1 <= txn_count t + 1).
    { destruct ob as [b |]; unfold all_txns; simpl.
      - destruct Hpost as (_ & _ & _ & _ & Htc & Hbl & Hleft & _).
        rewrite app_nil_r. lia.
      - destruct Hpost as (_ & _ & _ & _ & [[Htc Hc] | [Htc Hc]]); [lia |].
        rewrite Htc, wrap64_small by lia. lia. }
    destruct H1 as [H1 H1r].
    destruct (IH t1 Hinv1) as (t' & bs & Hrun & Hcons & Hrange); [lia | lia |].
    rewrite Hrun. cbn [mbind option_bind fst snd].
    eexists _, _. split; [reflexivity |].
    unfold all_txns in *. rewrite map_app, concat_app, length_app.
    split; lia.
Qed.

(** X19.  The fee total grows, modulo 2^64, by the fees of exactly the
    entries put into blocks: fragments and enqueues do not touch it. *)
Theorem run_fee_total t evs :
  tile_inv t → Forall event_ok evs →
  ∃ t' bs, run t evs = Some (t', bs) ∧
           wrap64 (fee_total t')
             = wrap64 (fee_total t + sum_fees (all_txns bs)).
Proof.
  intros Hinv Hok. revert t Hinv.
  induction Hok as [|ev evs Hev Hevs IH]; intros t Hinv; simpl.
  - exists t, []. split; [done |]. unfold all_txns. simpl. by rewrite Z.add_0_r.
  - destruct (step_effect t ev Hinv Hev) as (t1 & ob & Hstep & Hinv1 & _ & Hpost).
    rewrite Hstep. cbn [mbind option_bind fst snd].
    destruct (IH t1 Hinv1) as (t' & bs & Hrun & Hfee).
    rewrite Hrun. cbn [mbind option_bind fst snd].
    eexists _, _. split; [reflexivity |].
    assert (Hsum : ∀ xs ys, sum_fees (xs ++ ys) = sum_fees xs + sum_fees ys).
    { intros xs ys. induction xs as [|x xs IHx]; simpl; [done |].
      rewrite IHx. lia. }
    rewrite Hfee. unfold all_txns. rewrite map_app, concat_app, Hsum.
    destruct ob as [b |]; simpl.
    + destruct Hpost as (_ & _ & _ & _ & _ & _ & _ & Hf). rewrite app_nil_r.
      unfold wrap64 in *.
      rewrite <- Zplus_mod_idemp_l, Hf, Zplus_mod_idemp_l. f_equal. lia.
    + destruct Hpost as (_ & _ & _ & Hf & _). by rewrite Hf.
Qed.

(** X20.  The epoch follows the slot: if the epoch is the slot divided
    by the epoch length before a run (as it is after init), it is so
    after the run. *)
Theorem run_epoch_tracks_slot t evs :
  tile_inv t → Forall event_ok evs →
  0 < epoch_length_slots (cfg t) →
  0 <= current_slot t →
  current_slot t + Z.of_nat (length evs) < 2 ^ 64 →
  current_epoch t = current_slot t / epoch_length_slots (cfg t) →
  ∃ t' bs, run t evs = Some (t', bs) ∧
           current_epoch t' = current_slot t' / epoch_length_slots (cfg t).
Proof.
  intros Hinv Hok. revert t Hinv.
  induction Hok as [|ev evs Hev Hevs IH]; intros t Hinv HL Hpos Hbound Hep;
    simpl in *.
  - by exists t, [].
  - destruct (step_effect t ev Hinv Hev) as (t1 & ob & Hstep & Hinv1 & Hcfg & Hpost).
    rewrite Hstep. cbn [mbind option_bind fst snd].
    set (L := epoch_length_slots (cfg t)) in *.
    assert (H1 : current_slot t <= current_slot t1 <= current_slot t + 1
                 ∧ current_epoch t1 = current_slot t1 / L).
    { destruct ob as [b |].
      - destruct Hpost as (_ & Hsl & _ & He & _).
        rewrite wrap64_small in * by lia. rewrite Hsl. split; [lia |].
        rewrite He, (div_succ _ L HL Hpos), Hep.
        assert (Hle : 0 <= current_slot t / L) by (apply Z.div_pos; lia).
        assert (Hub : current_slot t / L <= current_slot t)
          by (apply Z.div_le_upper_bound; nia).
        destruct (decide ((current_slot t + 1) mod L = 0)) as [Hm | Hm].
        + rewrite decide_True by (split; [lia | done]).
          apply wrap64_small. lia.
        + rewrite decide_False by tauto. done.
      - destruct Hpost as (Hsl & He & _). rewrite Hsl, He. split; [lia | done]. }
    destruct H1 as [Hsl1 Hep1].
    destruct (IH t1 Hinv1) as (t' & bs & Hrun & Hend);
      rewrite ?Hcfg; fold L; try lia; try done.
    rewrite Hrun. cbn [mbind option_bind fst snd].
    eexists _, _. split; [reflexivity |]. simpl.
    by rewrite Hcfg in Hend.
Qed.

End RunProperties.

Lemma run_keeps_invariant_witness :
  ∃ t' bs, run_events example_sha256 example_sign (example_tile 2)
             example_events = Some (t', bs) ∧
           tile_inv t' ∧ cfg t' = cfg (example_tile 2) ∧
           (length bs <= length example_events)%nat.
Proof.
  apply (run_keeps_invariant example_sha256 example_sign (example_tile 2)).
  - split; [split |].
    + unfold queue_wf. simpl. lia.
    + intros i Hi. simpl in Hi. lia.
    + unfold FD_SEQUENCER_TXN_MTU. simpl. lia.
  - repeat constructor; unfold FD_SEQUENCER_TXN_MTU; simpl; lia.
Defined.

Lemma run_slot_numbers_witness :
  ∃ t' bs, run_events example_sha256 example_sign (example_tile 2)
             example_events = Some (t', bs) ∧
           current_slot t'
             = current_slot (example_tile 2) + Z.of_nat (length bs) ∧
           ∀ (i : nat) b, bs !! i = Some b →
             hdr_slot (blk_hdr b)
               = current_slot (example_tile 2) + Z.of_nat i.
Proof.
  apply (run_slot_numbers example_sha256 example_sign (example_tile 2)).
  - split; [split |].
    + unfold queue_wf. simpl. lia.
    + intros i Hi. simpl in Hi. lia.
    + unfold FD_SEQUENCER_TXN_MTU. simpl. lia.
  - repeat constructor; unfold FD_SEQUENCER_TXN_MTU; simpl; lia.
  - simpl. lia.
  - simpl. lia.
Defined.

Lemma run_txn_conservation_witness :
  ∃ t' bs, run_events example_sha256 example_sign (example_tile 2)
             example_events = Some (t', bs) ∧
           txn_count t' + tx_queue_cnt (example_tile 2)
             = txn_count (example_tile 2) + tx_queue_cnt t'
               + Z.of_nat (length (all_txns bs)) ∧
           txn_count (example_tile 2) <= txn_count t' <=
             txn_count (example_tile 2)
             + Z.of_nat (length example_events).
Proof.
  apply (run_txn_conservation example_sha256 example_sign (example_tile 2)).
  - split; [split |].
    + unfold queue_wf. simpl. lia.
    + intros i Hi. simpl in Hi. lia.
    + unfold FD_SEQUENCER_TXN_MTU. simpl. lia.
  - repeat constructor; unfold FD_SEQUENCER_TXN_MTU; simpl; lia.
  - simpl. lia.
  - simpl. lia.
Defined.

Lemma run_fee_total_witness :
  ∃ t' bs, run_events example_sha256 example_sign (example_tile 2)
             example_events = Some (t', bs) ∧
           wrap64 (fee_total t')
             = wrap64 (fee_total (example_tile 2) + sum_fees (all_txns bs)).
Proof.
  apply (run_fee_total example_sha256 example_sign (example_tile 2)).
  - split; [split |].
    + unfold queue_wf. simpl. lia.
    + intros i Hi. simpl in Hi. lia.
    + unfold FD_SEQUENCER_TXN_MTU. simpl. lia.
  - repeat constructor; unfold FD_SEQUENCER_TXN_MTU; simpl; lia.
Defined.

Lemma run_epoch_tracks_slot_witness :
  ∃ t' bs, run_events example_sha256 example_sign (example_tile 2)
             example_events = Some (t', bs) ∧
           current_epoch t'
             = current_slot t' / epoch_length_slots (cfg (example_tile 2)).
Proof.
  apply (run_epoch_tracks_slot example_sha256 example_sign (example_tile 2)).
  - split; [split |].
    + unfold queue_wf. simpl. lia.
    + intros i Hi. simpl in Hi. lia.
    + unfold FD_SEQUENCER_TXN_MTU. simpl. lia.
  - repeat constructor; unfold FD_SEQUENCER_TXN_MTU; simpl; lia.
  - simpl. lia.
  - simpl. lia.
  - simpl. lia.
  - reflexivity.
Defined.

(** ** Init, the first block, the epoch length, the header bytes *)

(** X21.  Init succeeds exactly from 86508992 bytes of scratch on.  The
    tile it returns satisfies the tile invariant; its queue is empty with
    capacity 65536, slot, epoch and all counters are 0, the parent hash
    is 32 zero bytes, the configuration is the default one, the block
    timer starts at the current tick count, nothing is staged, and both
    key fields are all zero. *)
Theorem init_state scratch_sz mem ticks :
  (scratch_sz < 86508992 →
   fd_sequencer_tile_unprivileged_init scratch_sz mem ticks = None) ∧
  (86508992 <= scratch_sz →
   FD_SEQUENCER_QUEUE_MAX <= Z.of_nat (length mem) →
   ∃ t, fd_sequencer_tile_unprivileged_init scratch_sz mem ticks = Some t ∧
        tile_inv t ∧
        tx_queue t = mem ∧ tx_queue_cnt t = 0 ∧ tx_queue_cap t = 65536 ∧
        fd_sequencer_txn_queue_peek t = None ∧
        current_slot t = 0 ∧ current_epoch t = 0 ∧ block_count t = 0 ∧
        txn_count t = 0 ∧ fee_total t = 0 ∧
        parent_hash t = zeros 32 ∧ cfg t = FD_SEQUENCER_CFG_DEFAULT ∧
        block_start_ticks t = ticks ∧ last_metrics_ticks t = ticks ∧
        frag_buf_sz t = 0 ∧
        sequencer_identity t = zeros 32 ∧ sequencer_privkey t = zeros 64).
Proof.
  assert (Hreq : wrap64 (sizeof_tile
                         + wrap64 (FD_SEQUENCER_QUEUE_MAX * sizeof_txn))
                 = 86508992) by reflexivity.
  unfold fd_sequencer_tile_unprivileged_init. rewrite Hreq. split.
  - intros Hsmall. by rewrite decide_True.
  - intros Hbig Hmem. rewrite decide_False by lia.
    eexists. split; [reflexivity |]. split; [| by split_and!].
    split; [split |].
    + unfold queue_wf. simpl. unfold FD_SEQUENCER_QUEUE_MAX in *. lia.
    + intros i Hi. simpl in Hi. lia.
    + simpl. by split_and!.
Qed.

Lemma init_state_witness :
  fd_sequencer_tile_unprivileged_init 86508991 [] 17 = None ∧
  ∃ t, fd_sequencer_tile_unprivileged_init 86508992
         (replicate (Z.to_nat FD_SEQUENCER_QUEUE_MAX) txn_zero) 17 = Some t ∧
       tile_inv t ∧
       tx_queue t = replicate (Z.to_nat FD_SEQUENCER_QUEUE_MAX) txn_zero ∧
       tx_queue_cnt t = 0 ∧ tx_queue_cap t = 65536 ∧
       fd_sequencer_txn_queue_peek t = None ∧
       current_slot t = 0 ∧ current_epoch t = 0 ∧ block_count t = 0 ∧
       txn_count t = 0 ∧ fee_total t = 0 ∧
       parent_hash t = zeros 32 ∧ cfg t = FD_SEQUENCER_CFG_DEFAULT ∧
       block_start_ticks t = 17 ∧ last_metrics_ticks t = 17 ∧
       frag_buf_sz t = 0 ∧
       sequencer_identity t = zeros 32 ∧ sequencer_privkey t = zeros 64.
Proof.
  split.
  - apply (proj1 (init_state 86508991 [] 17)). lia.
  - apply (proj2 (init_state 86508992 (replicate (Z.to_nat FD_SEQUENCER_QUEUE_MAX) txn_zero) 17)).
    + lia.
    + vm_compute. discriminate.
Defined.

(** X22.  The first block of a sequencer that has received nothing: init
    leaves the slot, the parent hash and both key fields zero, and the
    empty path writes no timestamp, merkle root or signature, so a
    housekeeping call at least one default interval after init produces a
    block whose header is all zero.  The parent hash for block 1 is then
    the hash of 184 zero bytes, whatever the tick counts, the wall-clock
    time, the hash and signature functions and the previous contents of
    the header's stack slot are; the slot becomes 1 and the block timer
    restarts at [now]. *)
Theorem first_block_all_zero (sha256 : list Z → list Z)
    (fd_ed25519_sign : list Z → list Z → list Z → list Z)
    scratch_sz mem ticks now wallclock hdr0 :
  86508992 <= scratch_sz →
  400000000 <= now - ticks < 2 ^ 63 →
  ∃ t t' b,
    fd_sequencer_tile_unprivileged_init scratch_sz mem ticks = Some t ∧
    fd_sequencer_tile_during_housekeeping sha256 fd_ed25519_sign t now
      wallclock hdr0 = Some (t', Some b) ∧
    blk_hdr b = hdr_zero ∧ blk_txns b = [] ∧
    hdr_full_bytes (blk_hdr b) = zeros 184 ∧
    parent_hash t' = sha256 (zeros 184) ∧
    current_slot t' = 1 ∧ current_epoch t' = 0 ∧ block_count t' = 1 ∧
    block_start_ticks t' = now.
Proof.
  intros Hbig Hdue.
  assert (Hreq : wrap64 (sizeof_tile
                         + wrap64 (FD_SEQUENCER_QUEUE_MAX * sizeof_txn))
                 = 86508992) by reflexivity.
  unfold fd_sequencer_tile_unprivileged_init. rewrite Hreq.
  rewrite decide_False by lia.
  eexists _, _, _. split; [reflexivity |].
  unfold fd_sequencer_tile_during_housekeeping.
  assert (Hel : ∀ t, block_start_ticks t = ticks → elapsed_ns t now = now - ticks).
  { intros t Hst. unfold elapsed_ns, wrap_long, wrap64. rewrite Hst.
    rewrite (Z.mod_small (_ + 2 ^ 63)) by lia.
    rewrite decide_False by lia. rewrite Z.mod_small; lia. }
  rewrite Hel by reflexivity.
  cbn [cfg block_time_ns max_txns_per_block FD_SEQUENCER_CFG_DEFAULT].
  rewrite decide_False by lia.
  rewrite build_block_empty by reflexivity.
  split; [reflexivity |]. by split_and!.
Qed.

Lemma first_block_all_zero_witness :
  ∃ t t' b,
    fd_sequencer_tile_unprivileged_init 86508992 [] 17 = Some t ∧
    fd_sequencer_tile_during_housekeeping example_sha256 example_sign t
      400000017 1700000000000000000 hdr_zero = Some (t', Some b) ∧
    blk_hdr b = hdr_zero ∧ blk_txns b = [] ∧
    hdr_full_bytes (blk_hdr b) = zeros 184 ∧
    parent_hash t' = example_sha256 (zeros 184) ∧
    current_slot t' = 1 ∧ current_epoch t' = 0 ∧ block_count t' = 1 ∧
    block_start_ticks t' = 400000017.
Proof.
  apply (first_block_all_zero example_sha256 example_sign 86508992 [] 17
           400000017 1700000000000000000 hdr_zero); lia.
Defined.

(** X23.  With an epoch length of 0 the slot-advance operation takes the
    remainder by 0 on every call that does not wrap the slot to 0:
    nothing in the code checks the configured epoch length. *)
Theorem advance_slot_zero_epoch_length t :
  epoch_length_slots (cfg t) = 0 →
  0 <= current_slot t < ULONG_MAX →
  fd_sequencer_advance_slot t = None.
Proof.
  unfold ULONG_MAX. intros Hz Hslot. unfold fd_sequencer_advance_slot.
  rewrite wrap64_small by lia.
  rewrite decide_True by lia. by rewrite decide_True.
Qed.

Lemma advance_slot_zero_epoch_length_witness :
  fd_sequencer_advance_slot
    (mk_tile (zeros 32) (zeros 64) 5 0 5 0 0 (zeros 32) [] 0 0 0 0
       (mk_cfg 400000000 10000 0) (zeros 1232) 0) = None.
Proof.
  apply (advance_slot_zero_epoch_length
           (mk_tile (zeros 32) (zeros 64) 5 0 5 0 0 (zeros 32) [] 0 0 0 0
              (mk_cfg 400000000 10000 0) (zeros 1232) 0)).
  - reflexivity.
  - unfold ULONG_MAX. simpl. lia.
Defined.

(** X24.  For a header whose arrays have their declared sizes, the 184
    bytes that are hashed into the parent chain are the 116 bytes that
    are signed, then the 64 signature bytes, then 4 bytes of padding: the
    signature field starts right after the transaction count. *)
Theorem header_byte_ranges h :
  length (hdr_parent_hash h) = 32%nat →
  length (hdr_merkle_root h) = 32%nat →
  length (hdr_sequencer_pubkey h) = 32%nat →
  length (hdr_signature h) = 64%nat →
  length (hdr_pad h) = 4%nat →
  hdr_full_bytes h = hdr_signed_bytes h ++ hdr_signature h ++ hdr_pad h ∧
  hdr_signed_bytes h = hdr_fields_bytes h ∧
  length (hdr_signed_bytes h) = Z.to_nat offsetof_signature ∧
  length (hdr_full_bytes h) = Z.to_nat sizeof_hdr ∧
  offsetof_signature = 116 ∧ sizeof_hdr = 184.
Proof.
  intros Hp Hm Hk Hs Hpad.
  assert (Hsb : hdr_signed_bytes h = hdr_fields_bytes h)
    by (by apply hdr_signed_bytes_fields).
  rewrite Hsb, hdr_full_bytes_split by done.
  split_and!; try done.
  - by rewrite hdr_fields_bytes_length.
  - rewrite !length_app, hdr_fields_bytes_length, Hs, Hpad by done.
    reflexivity.
Qed.

Lemma header_byte_ranges_witness :
  hdr_full_bytes hdr_zero
    = hdr_signed_bytes hdr_zero ++ hdr_signature hdr_zero ++ hdr_pad hdr_zero ∧
  hdr_signed_bytes hdr_zero = hdr_fields_bytes hdr_zero ∧
  length (hdr_signed_bytes hdr_zero) = Z.to_nat offsetof_signature ∧
  length (hdr_full_bytes hdr_zero) = Z.to_nat sizeof_hdr ∧
  offsetof_signature = 116 ∧ sizeof_hdr = 184.
Proof.
  apply (header_byte_ranges hdr_zero); reflexivity.
Defined.
